(** * selenic.util: the timeout stack, the location comparator and the
      visibility probe

    A shallow embedding of [selenic/util.py].  Python exceptions are values
    of [exn]; a call that can raise returns a [result].  Methods of [Util]
    are state transformers that hand back the state also when they raise,
    since a Python exception does not undo the mutations made before it. *)

From Stdlib Require Import ZArith List String Ascii Bool Lia DecimalString.
Import ListNotations.
Local Open Scope string_scope.

(** ** Exceptions and results *)

Inductive exn : Type :=
| Exception (msg : string)
| ValueError (msg : string)
| TypeError (msg : string)
| IndexError (msg : string)
| KeyError (key : string)
| OverflowError (msg : string)
| WebDriverException (msg : string).

Inductive result (A : Type) : Type :=
| Ok (a : A)
| Raise (e : exn).

Arguments Ok {A} a.
Arguments Raise {A} e.

(** ** Stateful calls that can raise *)

Section StateExn.

Variable S : Type.

(** A call on a mutable object: its outcome and the state it leaves. *)
Definition M (A : Type) : Type := S -> result A * S.

Definition ret {A} (a : A) : M A := fun s => (Ok a, s).

Definition throw {A} (e : exn) : M A := fun s => (Raise e, s).

Definition bind {A B} (m : M A) (k : A -> M B) : M B :=
  fun s =>
    match m s with
    | (Ok a, s') => k a s'
    | (Raise e, s') => (Raise e, s')
    end.

(** [try: body finally: fin] (Python) and [try { body } finally { fin }]
    (JavaScript): [fin] runs on both outcomes of [body]; an exception of
    [fin] replaces the outcome of [body]. *)
Definition try_finally {A B} (body : M A) (fin : M B) : M A :=
  fun s =>
    let (r, s1) := body s in
    match fin s1 with
    | (Ok _, s2) => (r, s2)
    | (Raise e, s2) => (Raise e, s2)
    end.

End StateExn.

Arguments ret {S A}.
Arguments throw {S A}.
Arguments bind {S A B}.
Arguments try_finally {S A B}.

Notation "x <- m ;; k" := (bind m (fun x => k))
  (at level 61, m at next level, right associativity).
Notation "m ;;; k" := (bind m (fun _ => k))
  (at level 61, right associativity).

(** ** The timeout stack of [Util] *)

Module TimeoutStack.

Section Stack.

(** Timeout values are opaque to the code: it stores them and hands them
    to the driver. *)
Variable T : Type.

(** The driver's answer to [set_script_timeout(v)], given the values it
    was asked to set before: [None] when it accepts the call, [Some e]
    when it raises [e].  A driver can refuse a value (a negative timeout)
    or fail on any call (a lost session). *)
Variable refuses : list T -> T -> option exn.

(** [self.timeouts], the script timeout held by [self.driver], and the
    values the driver was asked to set, first call first. *)
Record util : Type := mkUtil {
  timeouts : list T;
  driver_script_timeout : T;
  driver_calls : list T
}.

(** [self.driver.set_script_timeout(v)]: a call that raises leaves the
    driver's timeout as it was. *)
Definition set_script_timeout (v : T) : M util unit :=
  fun s =>
    match refuses (driver_calls s) v with
    | None =>
        (Ok tt, {| timeouts := timeouts s;
                   driver_script_timeout := v;
                   driver_calls := driver_calls s ++ [v] |})
    | Some e =>
        (Raise e, {| timeouts := timeouts s;
                     driver_script_timeout := driver_script_timeout s;
                     driver_calls := driver_calls s ++ [v] |})
    end.

(** The object that [Util.__init__(driver, default_timeout)] builds when
    the driver accepts the default timeout. *)
Definition init (default_timeout : T) : util :=
  {| timeouts := [default_timeout];
     driver_script_timeout := default_timeout;
     driver_calls := [default_timeout] |}.

(** [Util(driver, default_timeout)] on a driver that was asked nothing
    yet: when the driver refuses, the constructor raises and there is no
    object. *)
Definition construct (default_timeout : T) : result util :=
  match refuses [] default_timeout with
  | None => Ok (init default_timeout)
  | Some e => Raise e
  end.

(** [self.timeouts[i]] *)
Definition timeouts_at (i : nat) : M util T :=
  fun s =>
    match nth_error (timeouts s) i with
    | Some v => (Ok v, s)
    | None => (Raise (IndexError "list index out of range"), s)
    end.

(** The property [Util.timeout]. *)
Definition timeout : M util T := timeouts_at 0.

(** [self.timeouts[0:0] = [new]] *)
Definition insert_front (new : T) : M util unit :=
  fun s => (Ok tt, {| timeouts := new :: timeouts s;
                      driver_script_timeout := driver_script_timeout s;
                      driver_calls := driver_calls s |}).

Definition push_timeout (new : T) : M util unit :=
  insert_front new ;;;
  set_script_timeout new.

(** [self.timeouts.pop(0)] *)
Definition pop_front : M util T :=
  fun s =>
    match timeouts s with
    | x :: rest =>
        (Ok x, {| timeouts := rest;
                  driver_script_timeout := driver_script_timeout s;
                  driver_calls := driver_calls s |})
    | [] => (Raise (IndexError "pop from empty list"), s)
    end.

Definition pop_timeout : M util T :=
  fun s =>
    if Nat.eqb (List.length (timeouts s)) 1 then
      throw (Exception
               "can't pop when there is only one element on the stack") s
    else
      (nxt <- timeouts_at 1 ;;
       set_script_timeout nxt ;;;
       pop_front) s.

(** The context manager [Util.local_timeout(value)] around the body of
    the [with] statement: the push comes before the [try]. *)
Definition local_timeout {A} (value : T) (body : M util A) : M util A :=
  push_timeout value ;;;
  try_finally body pop_timeout.

(** States of a [Util] object: built by [__init__], then changed by
    [push_timeout] and [pop_timeout], whether they return or raise. *)
Inductive reachable : util -> Prop :=
| reach_init : forall d, reachable (init d)
| reach_push : forall v s, reachable s -> reachable (snd (push_timeout v s))
| reach_pop : forall s, reachable s -> reachable (snd (pop_timeout s)).

(** The driver is in step with the stack: the stack is not empty and the
    driver's script timeout is its front element. *)
Definition front_is_active (s : util) : Prop :=
  exists x rest, timeouts s = x :: rest /\ driver_script_timeout s = x.

End Stack.

Arguments mkUtil {T}.
Arguments timeouts {T}.
Arguments driver_script_timeout {T}.
Arguments driver_calls {T}.
Arguments set_script_timeout {T}.
Arguments init {T}.
Arguments construct {T}.
Arguments timeout {T}.
Arguments push_timeout {T}.
Arguments pop_timeout {T}.
Arguments local_timeout {T} refuses {A}.
Arguments reachable {T}.
Arguments front_is_active {T}.

(** Drivers used in the examples: one that accepts every call, one that
    refuses negative timeouts, and one that fails on the call that comes
    after [n] earlier ones and accepts the others. *)
Definition always_accepts : list Z -> Z -> option exn :=
  fun _ _ => None.

Definition refuses_negative : list Z -> Z -> option exn :=
  fun _ v =>
    if (v <? 0)%Z then Some (WebDriverException "invalid argument")
    else None.

Definition fails_call (n : nat) : list Z -> Z -> option exn :=
  fun asked _ =>
    if Nat.eqb (List.length asked) n
    then Some (WebDriverException "connection lost")
    else None.

End TimeoutStack.

(** ** [locations_within] *)

Module Locations.

Section Comparator.

(** The values of the two dictionaries, and Python's [int] on them, which
    raises on a value it cannot convert. *)
Variable value : Type.
Variable py_int : value -> result Z.

(** A [dict] with [str] keys: its items in insertion order.  A [dict] has
    no two items under one key; the statements that need it ask for
    [NoDup (keys d)]. *)
Definition dict : Type := list (string * value).

Definition keys (d : dict) : list string := map fst d.

(** [key in d] *)
Definition has_key (d : dict) (key : string) : bool :=
  existsb (String.eqb key) (keys d).

(** [d[key]] *)
Definition getitem (d : dict) (key : string) : result value :=
  match find (fun kv => String.eqb key (fst kv)) d with
  | Some kv => Ok (snd kv)
  | None => Raise (KeyError key)
  end.

(** [del d[key]] *)
Definition delitem (d : dict) (key : string) : dict :=
  filter (fun kv => negb (String.eqb key (fst kv))) d.

(** [str] of an [int], as [format] prints it. *)
Definition str (z : Z) : string := NilZero.string_of_int (Z.to_int z).

(** ['key {0} differs: {1} {2}'.format(key, va, vb)] *)
Definition format_diff (key : string) (va vb : Z) : string :=
  "key " ++ key ++ " differs: " ++ str va ++ " " ++ str vb.

Definition and_then {A B} (r : result A) (k : A -> result B) : result B :=
  match r with
  | Ok a => k a
  | Raise e => Raise e
  end.

(** The [for (key, value) in a.items()] loop, on the items left to visit,
    the working copy of [b] and the string accumulated so far. *)
Fixpoint compare_items (items : dict) (b : dict) (tolerance : Z)
         (ret : string) : result (string * dict) :=
  match items with
  | [] => Ok (ret, b)
  | (key, value) :: rest =>
      if negb (has_key b key) then
        Raise (ValueError ("b does not have the key: " ++ key))
      else
        and_then (py_int value) (fun va =>
        and_then (getitem b key) (fun bv =>
        and_then (py_int bv) (fun vb =>
          let ret' :=
            if (Z.abs (va - vb) >? tolerance)%Z
            then ret ++ format_diff key va vb
            else ret in
          compare_items rest (delitem b key) tolerance ret')))
  end.

Definition locations_within (a b : dict) (tolerance : Z) : result string :=
  and_then (compare_items a b tolerance "") (fun '(ret, b') =>
    match b' with
    | [] => Ok ret
    | _ :: _ =>
        Raise (ValueError ("keys in b not seen in a: "
                           ++ String.concat ", " (keys b')))
    end).

(** *** What the comparison is expected to report

    The next definitions follow the description of the result, not the
    loop: the integer behind a value, the integer [b] holds under a key,
    whether an item of [a] is out of tolerance, its description, and the
    descriptions of all such items, in the order of [a]. *)

Definition int_of (v : value) : Z :=
  match py_int v with
  | Ok z => z
  | Raise _ => 0%Z
  end.

Definition int_at (d : dict) (key : string) : Z :=
  match getitem d key with
  | Ok v => int_of v
  | Raise _ => 0%Z
  end.

Definition exceeds (b : dict) (tolerance : Z) (kv : string * value) : bool :=
  (Z.abs (int_of (snd kv) - int_at b (fst kv)) >? tolerance)%Z.

Definition describe (b : dict) (kv : string * value) : string :=
  format_diff (fst kv) (int_of (snd kv)) (int_at b (fst kv)).

Definition join_all (l : list string) : string :=
  fold_right String.append "" l.

Definition differences (a b : dict) (tolerance : Z) : string :=
  join_all (map (describe b) (filter (exceeds b tolerance) a)).

(** Every value of [d] is accepted by [int]. *)
Definition coercible (d : dict) : Prop :=
  forall kv, In kv d -> exists z, py_int (snd kv) = Ok z.

(** The items of [b] whose key is not a key of [a]. *)
Definition leftover (a b : dict) : dict :=
  filter (fun kv => negb (has_key a (fst kv))) b.

End Comparator.

(** Python [int]s convert to themselves. *)
Definition int_of_int (z : Z) : result Z := Ok z.

Arguments int_of {value}.
Arguments int_at {value}.
Arguments exceeds {value}.
Arguments describe {value}.
Arguments differences {value}.
Arguments coercible {value}.
Arguments leftover {value}.
Arguments keys {value}.
Arguments has_key {value}.
Arguments getitem {value}.
Arguments delitem {value}.
Arguments compare_items {value}.
Arguments locations_within {value}.

End Locations.

(** ** [Util.visible_to_user] *)

Module Visibility.

(** DOM elements (and the [WebElement]s that stand for them), by identity. *)
Definition elem : Type := nat.

(** A jQuery selector, and a value of the CSS [display] property. *)
Definition selector : Type := string.
Definition css_value : Type := string.

(** The JavaScript values the script's variable [at_corner] can hold. *)
Inductive jsval : Type :=
| JElement (e : elem)
| JNull
| JBool (b : bool).

(** [{top: ..., left: ...}], [{height: ..., width: ...}] and a [DOMRect].
    Coordinates are integers here; the code only adds and compares them. *)
Record offset : Type := mkOffset { top : Z; left : Z }.
Record dims : Type := mkDims { height : Z; width : Z }.
Record rect : Type := mkRect {
  rect_left : Z; rect_top : Z; rect_right : Z; rect_bottom : Z
}.

(** The computed [display] of every element. *)
Definition displays : Type := elem -> css_value.

(** What the driver and the document answer during one call.  Layout and
    hit-testing depend on the current [display] values. *)
Record page : Type := mkPage {
  is_displayed : elem -> result bool;       (* [element.is_displayed()] *)
  size : elem -> result dims;               (* [element.size] *)
  jq_offset : elem -> offset;               (* [$(el).offset()] *)
  scroll_top : Z;                           (* [$(document).scrollTop()] *)
  scroll_left : Z;                          (* [$(document).scrollLeft()] *)
  inner_height : Z;                         (* [window.innerHeight] *)
  inner_width : Z;                          (* [window.innerWidth] *)
  jquery : selector -> list elem;
    (* [$(x)]: the elements a selector matches, in document order *)
  jquery_array : list selector -> list elem;
    (* the elements held by [$(ignorable)]; jQuery builds this object from
       the array it is given, without running the selectors, so what it
       holds is left to the page *)
  bounding_client_rect : displays -> elem -> rect;
  element_from_point : displays -> Z -> Z -> option elem;
  node_contains : elem -> elem -> bool;     (* inclusive descendant *)
  contains_type_checks : bool
    (* whether [Node.contains] throws a TypeError on an argument that is
       neither a Node nor null, as the DOM standard has it, or answers
       false as older engines did *)
}.

(** The calls that reach the driver. *)
Inductive call : Type :=
| CallIsDisplayed (e : elem)
| CallSize (e : elem)
| ScriptScreenPosition (e : elem)
| ScriptWindowInnerSize
| ScriptVisibleToUser (e : elem) (ignorable : list selector).

(** The document's [display] values and the calls made so far. *)
Record browser : Type := mkBrowser {
  display : displays;
  calls : list call
}.

Definition log (c : call) : M browser unit :=
  fun s => (Ok tt, {| display := display s; calls := calls s ++ [c] |}).

Definition lift {A} (r : result A) : M browser A := fun s => (r, s).

(** [driver.execute_script(...)]: an exception thrown by the script
    reaches Python as a [WebDriverException]. *)
Definition execute_script {A} (c : call) (script : M browser A)
  : M browser A :=
  log c ;;;
  fun s =>
    match script s with
    | (Ok a, s') => (Ok a, s')
    | (Raise _, s') => (Raise (WebDriverException "javascript error"), s')
    end.

Section Probe.

Variable p : page.

Definition element_screen_position (element : elem) : M browser offset :=
  execute_script (ScriptScreenPosition element)
    (let offset := jq_offset p element in
     ret {| top := top offset - scroll_top p;
            left := left offset - scroll_left p |}).

Definition get_window_inner_size : M browser dims :=
  execute_script ScriptWindowInnerSize
    (ret {| height := inner_height p; width := inner_width p |}).

(** [$(x).css("display")]: the value of the first matched element,
    [undefined] ([None]) when nothing matches. *)
Definition css_get (x : selector) : M browser (option css_value) :=
  fun s =>
    (Ok match jquery p x with
        | e :: _ => Some (display s e)
        | [] => None
        end, s).

(** The setter on a set of elements: every one of them is set. *)
Definition set_display (es : list elem) (v : css_value) : M browser unit :=
  fun s =>
    (Ok tt,
     {| display := fun e => if existsb (Nat.eqb e) es then v
                            else display s e;
        calls := calls s |}).

(** [$(x).css("display", v)]; with [v] undefined jQuery sets nothing. *)
Definition css_set (x : selector) (v : option css_value) : M browser unit :=
  match v with
  | Some v => set_display (jquery p x) v
  | None => ret tt
  end.

(** [ignorable.forEach(function (x) { old_displays.push(...); })] *)
Fixpoint save_displays (ignorable : list selector)
  : M browser (list (option css_value)) :=
  match ignorable with
  | [] => ret []
  | x :: rest =>
      d <- css_get x ;;
      ds <- save_displays rest ;;
      ret (d :: ds)
  end.

(** The [forEach] of the [finally] block, with its counter [ix];
    [old_displays[ix]] is undefined out of range. *)
Fixpoint restore_displays (old_displays : list (option css_value))
         (ignorable : list selector) (ix : nat) : M browser unit :=
  match ignorable with
  | [] => ret tt
  | x :: rest =>
      css_set x (nth ix old_displays None) ;;;
      restore_displays old_displays rest (S ix)
  end.

(** [document.elementFromPoint(x, y) === el] *)
Definition efp_is (x y : Z) (el : elem) : M browser bool :=
  fun s =>
    (Ok match element_from_point p (display s) x y with
        | Some n => Nat.eqb n el
        | None => false
        end, s).

(** [el.contains(v)] *)
Definition contains (el : elem) (v : jsval) : M browser bool :=
  match v with
  | JElement n => ret (node_contains p el n)
  | JNull => ret false
  | JBool _ =>
      if contains_type_checks p
      then throw (TypeError "parameter 1 is not of type 'Node'")
      else ret false
  end.

(** [(at_corner = efp(x, y) === el) || el.contains(at_corner)]: [===]
    binds tighter than [=], so [at_corner] receives the comparison's
    boolean. *)
Definition corner (el : elem) (x y : Z) : M browser bool :=
  b <- efp_is x y el ;;
  let at_corner := JBool b in
  if b then ret true else contains el at_corner.

(** [m1 || m2] *)
Definition or_else (m1 m2 : M browser bool) : M browser bool :=
  b <- m1 ;;
  if b then ret true else m2.

(** The script handed to [execute_script] by [visible_to_user]. *)
Definition visible_script (el : elem) (ignorable : list selector)
  : M browser bool :=
  old_displays <- save_displays ignorable ;;
  set_display (jquery_array p ignorable) "none" ;;;
  try_finally
    (fun s =>
       let rect := bounding_client_rect p (display s) el in
       or_else (corner el (rect_left rect) (rect_top rect))
      (or_else (corner el (rect_left rect) (rect_bottom rect))
      (or_else (corner el (rect_right rect) (rect_top rect))
               (corner el (rect_right rect) (rect_bottom rect)))) s)
    (restore_displays old_displays ignorable 0).

(** The test under the comment [# Outside the viewport]. *)
Definition outside_viewport (pos : offset) (size window_size : dims)
  : bool :=
  (top pos + height size <? 0)%Z
  || (left pos + width size <? 0)%Z
  || (top pos >? height window_size)%Z
  || (left pos >? width window_size)%Z.

Definition visible_to_user (element : elem) (ignorable : list selector)
  : M browser bool :=
  displayed <- (log (CallIsDisplayed element) ;;;
                lift (is_displayed p element)) ;;
  if negb displayed then ret false
  else
    pos <- element_screen_position element ;;
    size <- (log (CallSize element) ;;; lift (size p element)) ;;
    window_size <- get_window_inner_size ;;
    if outside_viewport pos size window_size then ret false
    else
      execute_script (ScriptVisibleToUser element ignorable)
        (visible_script element ignorable).

End Probe.

(** *** What the probe is expected to answer

    The next definitions follow the description of the probe, not its
    code. *)

(** The four corners of a rectangle: top-left, bottom-left, top-right,
    bottom-right. *)
Definition corners (r : rect) : list (Z * Z) :=
  [(rect_left r, rect_top r); (rect_left r, rect_bottom r);
   (rect_right r, rect_top r); (rect_right r, rect_bottom r)].

(** The element found at a point is the target or one of its
    descendants. *)
Definition hits_target (p : page) (d : displays) (el : elem) (xy : Z * Z)
  : bool :=
  match element_from_point p d (fst xy) (snd xy) with
  | Some n => Nat.eqb n el || node_contains p el n
  | None => false
  end.

Definition some_corner_hits (p : page) (d : displays) (el : elem) : bool :=
  existsb (hits_target p d el) (corners (bounding_client_rect p d el)).

(** The element's box is above, to the left of, below or to the right of
    the viewport. *)
Definition entirely_outside (pos : offset) (size window_size : dims) : Prop :=
  (top pos + height size < 0 \/ left pos + width size < 0
   \/ top pos > height window_size \/ left pos > width window_size)%Z.

(** The same with points: no point of the element's box is a point of the
    viewport. *)
Definition in_box (pos : offset) (size : dims) (x y : Z) : Prop :=
  (left pos <= x <= left pos + width size
   /\ top pos <= y <= top pos + height size)%Z.

Definition in_viewport (window_size : dims) (x y : Z) : Prop :=
  (0 <= x <= width window_size /\ 0 <= y <= height window_size)%Z.

(** Where the element is on the screen, as [element_screen_position]
    computes it, and the window's inner size. *)
Definition screen_offset (p : page) (element : elem) : offset :=
  {| top := top (jq_offset p element) - scroll_top p;
     left := left (jq_offset p element) - scroll_left p |}.

Definition window_dims (p : page) : dims :=
  {| height := inner_height p; width := inner_width p |}.

(** What the first [forEach] of the script saves for a selector, in a
    document whose state is [s0]. *)
Definition saved (p : page) (s0 : browser) (x : selector)
  : option css_value :=
  match jquery p x with
  | e :: _ => Some (display s0 e)
  | [] => None
  end.

Definition matched_by (p : page) (e : elem) (x : selector) : bool :=
  existsb (Nat.eqb e) (jquery p x).

(** All the matches of [x] have the [display] of the first one. *)
Definition uniform (p : page) (s0 : browser) (x : selector) : Prop :=
  forall e v,
    matched_by p e x = true -> saved p s0 x = Some v -> display s0 e = v.

(** *** Pages used in the examples *)

(** A 100 by 100 target, element 0, at (10, 10) in a 800 by 600 window,
    covered by its child, element 1: every hit test finds the child. *)
Definition page_child_on_top (type_checks : bool) : page :=
  {| is_displayed := fun _ => Ok true;
     size := fun _ => Ok {| height := 100; width := 100 |};
     jq_offset := fun _ => {| top := 10; left := 10 |};
     scroll_top := 0;
     scroll_left := 0;
     inner_height := 600;
     inner_width := 800;
     jquery := fun _ => [];
     jquery_array := fun _ => [];
     bounding_client_rect := fun _ _ =>
       {| rect_left := 10; rect_top := 10;
          rect_right := 110; rect_bottom := 110 |};
     element_from_point := fun _ _ _ => Some 1;
     node_contains := fun el n =>
       Nat.eqb el n || (Nat.eqb el 0 && Nat.eqb n 1);
     contains_type_checks := type_checks |}.

(** The same target, with two overlays, elements 1 and 2, that the selector
    [.overlay] matches in this order.  [hidden] is what [$(ignorable)]
    holds and [hit] what every hit test finds. *)
Definition page_two_overlays (hidden : list selector -> list elem)
           (type_checks : bool) (hit : option elem) : page :=
  {| is_displayed := fun _ => Ok true;
     size := fun _ => Ok {| height := 100; width := 100 |};
     jq_offset := fun _ => {| top := 10; left := 10 |};
     scroll_top := 0;
     scroll_left := 0;
     inner_height := 600;
     inner_width := 800;
     jquery := fun x => if String.eqb x ".overlay" then [1; 2] else [];
     jquery_array := hidden;
     bounding_client_rect := fun _ _ =>
       {| rect_left := 10; rect_top := 10;
          rect_right := 110; rect_bottom := 110 |};
     element_from_point := fun _ _ _ => hit;
     node_contains := fun el n => Nat.eqb el n;
     contains_type_checks := type_checks |}.

(** The first overlay is a block, the second is inline. *)
Definition two_overlays_start : browser :=
  {| display := fun e => if Nat.eqb e 2 then "inline" else "block";
     calls := [] |}.

(** A target that is not displayed, and one scrolled out above the
    window. *)
Definition page_not_displayed : page :=
  {| is_displayed := fun _ => Ok false;
     size := fun _ => Ok {| height := 100; width := 100 |};
     jq_offset := fun _ => {| top := 10; left := 10 |};
     scroll_top := 0;
     scroll_left := 0;
     inner_height := 600;
     inner_width := 800;
     jquery := fun _ => [];
     jquery_array := fun _ => [];
     bounding_client_rect := fun _ _ =>
       {| rect_left := 10; rect_top := 10;
          rect_right := 110; rect_bottom := 110 |};
     element_from_point := fun _ _ _ => Some 0;
     node_contains := fun el n => Nat.eqb el n;
     contains_type_checks := true |}.

Definition page_scrolled_past : page :=
  {| is_displayed := fun _ => Ok true;
     size := fun _ => Ok {| height := 100; width := 100 |};
     jq_offset := fun _ => {| top := 10; left := 10 |};
     scroll_top := 500;
     scroll_left := 0;
     inner_height := 600;
     inner_width := 800;
     jquery := fun _ => [];
     jquery_array := fun _ => [];
     bounding_client_rect := fun _ _ =>
       {| rect_left := 10; rect_top := -490;
          rect_right := 110; rect_bottom := -390 |};
     element_from_point := fun _ _ _ => None;
     node_contains := fun el n => Nat.eqb el n;
     contains_type_checks := true |}.

Definition blank : browser :=
  {| display := fun _ => "block"; calls := [] |}.

End Visibility.

(** ** Sequences of calls on the timeout stack *)

Module StackRuns.

Import TimeoutStack.

Section Runs.

Variable T : Type.
Variable refuses : list T -> T -> option exn.

(** [for v in vs: util.push_timeout(v)] *)
Fixpoint push_all (vs : list T) : M (util T) unit :=
  match vs with
  | [] => ret tt
  | v :: rest => push_timeout refuses v ;;; push_all rest
  end.

(** [[util.pop_timeout() for _ in range(n)]] *)
Fixpoint pop_n (n : nat) : M (util T) (list T) :=
  match n with
  | O => ret []
  | S k =>
      v <- pop_timeout refuses ;;
      vs <- pop_n k ;;
      ret (v :: vs)
  end.

(** The states of a [Util] object built with [default_timeout]. *)
Inductive reaches (default_timeout : T) : util T -> Prop :=
| reaches_init : reaches default_timeout (init default_timeout)
| reaches_push : forall v s,
    reaches default_timeout s ->
    reaches default_timeout (snd (push_timeout refuses v s))
| reaches_pop : forall s,
    reaches default_timeout s ->
    reaches default_timeout (snd (pop_timeout refuses s)).

(** A body of a [with] statement that hands a stack that is not empty
    back with the values it held, whatever the outcome of the body. *)
Definition stack_neutral {A} (body : M (util T) A) : Prop :=
  forall s, timeouts s <> [] -> timeouts (snd (body s)) = timeouts s.

(** The driver accepts every call. *)
Definition accepts_all : Prop :=
  forall asked v, refuses asked v = None.

End Runs.

Arguments push_all {T}.
Arguments pop_n {T}.
Arguments reaches {T}.
Arguments stack_neutral {T A}.
Arguments accepts_all {T}.

End StackRuns.

(** ** [Util.completely_visible_to_user] and [Util.element_screen_center] *)

Module Screen.

Import Visibility.

(** [2 ** 53] and [2 ** 1025]. *)
Definition two53 : Z := Eval cbv in (2 ^ 53)%Z.
Definition two1025 : Z := Eval cbv in (2 ^ 1025)%Z.

(** An integer that is not negative, rounded to the 53 significant bits of
    a Python [float], ties to the even neighbour. *)
Definition round53 (n : Z) : Z :=
  if (n <? two53)%Z then n
  else
    let e := (Z.log2 n - 52)%Z in
    let q := (n / 2 ^ e)%Z in
    let r := (n mod 2 ^ e)%Z in
    if (2 * r <? 2 ^ e)%Z then (q * 2 ^ e)%Z
    else if (2 ^ e <? 2 * r)%Z then ((q + 1) * 2 ^ e)%Z
    else if Z.even q then (q * 2 ^ e)%Z
    else ((q + 1) * 2 ^ e)%Z.

(** [int(n / 2)] on an [int] in Python 3: [n / 2] is the [float] nearest
    to the quotient, an [OverflowError] when that is beyond the range of
    [float], and [int] drops its fraction. *)
Definition half (n : Z) : result Z :=
  let m := round53 (Z.abs n) in
  if (two1025 <=? m)%Z
  then Raise (OverflowError "integer division result too large for a float")
  else Ok (Z.sgn n * Z.quot m 2)%Z.

Section Queries.

Variable p : page.

(** [self.driver.get_window_size()], the size of the window itself. *)
Variable get_window_size : result dims.

(** The conjunction returned by [completely_visible_to_user]. *)
Definition inside_window (pos : offset) (size window_size : dims) : bool :=
  (top pos >=? 0)%Z
  && (left pos >=? 0)%Z
  && (top pos + height size <=? height window_size)%Z
  && (left pos + width size <=? width window_size)%Z.

Definition completely_visible_to_user (element : elem) : M browser bool :=
  displayed <- (log (CallIsDisplayed element) ;;;
                lift (is_displayed p element)) ;;
  if negb displayed then ret false
  else
    pos <- element_screen_position p element ;;
    size <- (log (CallSize element) ;;; lift (size p element)) ;;
    window_size <- lift get_window_size ;;
    ret (inside_window pos size window_size).

Definition element_screen_center (element : elem) : M browser offset :=
  pos <- element_screen_position p element ;;
  size <- (log (CallSize element) ;;; lift (size p element)) ;;
  half_height <- lift (half (height size)) ;;
  half_width <- lift (half (width size)) ;;
  ret {| top := top pos + half_height;
         left := left pos + half_width |}.

End Queries.

(** The display values once the script of [visible_to_user] has hidden
    what [$(ignorable)] holds. *)
Definition hidden_displays (p : page) (ignorable : list selector)
           (s : browser) : displays :=
  fun e => if existsb (Nat.eqb e) (jquery_array p ignorable) then "none"
           else display s e.

(** The four corner tests of the script of [visible_to_user], the state
    in which they run, and the state after the four queries that come
    before the script. *)
Definition corner_tests (p : page) (el : elem) : M browser bool :=
  fun s =>
    let r := bounding_client_rect p (display s) el in
    or_else (corner p el (rect_left r) (rect_top r))
      (or_else (corner p el (rect_left r) (rect_bottom r))
      (or_else (corner p el (rect_right r) (rect_top r))
               (corner p el (rect_right r) (rect_bottom r)))) s.

Definition hidden_state (p : page) (ignorable : list selector)
           (s : browser) : browser :=
  {| display := hidden_displays p ignorable s; calls := calls s |}.

Definition queried (element : elem) (s : browser) : browser :=
  {| display := display s;
     calls := calls s ++ [CallIsDisplayed element;
                          ScriptScreenPosition element;
                          CallSize element;
                          ScriptWindowInnerSize] |}.

(** A target whose top-left corner finds the target, behind one overlay,
    element 1, that [.overlay] matches. *)
Definition page_one_overlay : page :=
  {| is_displayed := fun _ => Ok true;
     size := fun _ => Ok {| height := 100; width := 101 |};
     jq_offset := fun _ => {| top := 510; left := 10 |};
     scroll_top := 500;
     scroll_left := 0;
     inner_height := 600;
     inner_width := 800;
     jquery := fun x => if String.eqb x ".overlay" then [1] else [];
     jquery_array := fun _ => [1];
     bounding_client_rect := fun _ _ =>
       {| rect_left := 10; rect_top := 10;
          rect_right := 111; rect_bottom := 110 |};
     element_from_point := fun d x y =>
       if String.eqb (d 1) "none" then Some 0 else Some 1;
     node_contains := fun el n => Nat.eqb el n;
     contains_type_checks := true |}.

End Screen.

(** ** [Util.assert_same] *)

Module Assertions.

Import Visibility.

(** An argument of [assert_same]: one element or a [list] of elements. *)
Inductive arg : Type :=
| One (e : elem)
| Many (l : list elem).

(** [if not isinstance(x, list): x = [x]] *)
Definition as_list (x : arg) : list elem :=
  match x with
  | One e => [e]
  | Many l => l
  end.

(** [first[i] !== second[i]]; an index out of range reads [undefined]. *)
Definition differ_at (first second : list elem) (i : nat) : bool :=
  match nth_error first i, nth_error second i with
  | Some a, Some b => negb (Nat.eqb a b)
  | None, None => false
  | _, _ => true
  end.

(** The [for] loop of the script from index [i], with [n] rounds to go
    before [i] reaches [first.length]. *)
Fixpoint same_from (first second : list elem) (i n : nat) : bool :=
  match n with
  | O => true
  | S n' =>
      if differ_at first second i then false
      else same_from first second (S i) n'
  end.

(** The script handed to [execute_script] by [assert_same]. *)
Definition same_script (first second : list elem) : bool :=
  if negb (Nat.eqb (List.length first) (List.length second)) then false
  else same_from first second 0 (List.length first).

(** [assert_same] returns nothing or raises an [AssertionError]. *)
Inductive outcome : Type :=
| Passes
| RaisesAssertionError (msg : string).

Definition assert_same (first second : arg) : outcome :=
  let first := as_list first in
  let second := as_list second in
  if negb (same_script first second) then RaisesAssertionError "unequal"
  else Passes.

End Assertions.

(** * Properties *)

(** ** The timeout stack *)

Section TimeoutStackFacts.

Import TimeoutStack.

Variable T : Type.
Variable refuses : list T -> T -> option exn.

Implicit Types (s : util T) (v x y : T) (rest : list T).

Lemma push_timeout_accepted v s :
  refuses (driver_calls s) v = None ->
  push_timeout refuses v s =
  (Ok tt, {| timeouts := v :: timeouts s;
             driver_script_timeout := v;
             driver_calls := driver_calls s ++ [v] |}).
Proof.
  intros Hacc. unfold push_timeout, bind, insert_front, set_script_timeout.
  cbn [driver_calls timeouts driver_script_timeout]. now rewrite Hacc.
Qed.

Lemma push_timeout_refused v s e :
  refuses (driver_calls s) v = Some e ->
  push_timeout refuses v s =
  (Raise e, {| timeouts := v :: timeouts s;
               driver_script_timeout := driver_script_timeout s;
               driver_calls := driver_calls s ++ [v] |}).
Proof.
  intros Href. unfold push_timeout, bind, insert_front, set_script_timeout.
  cbn [driver_calls timeouts driver_script_timeout]. now rewrite Href.
Qed.

(** Whatever the driver answers, [push_timeout] has put the value on the
    stack. *)
Lemma push_timeout_timeouts v s :
  timeouts (snd (push_timeout refuses v s)) = v :: timeouts s.
Proof.
  destruct (refuses (driver_calls s) v) as [e |] eqn:Hr.
  - now rewrite (push_timeout_refused v s e Hr).
  - now rewrite (push_timeout_accepted v s Hr).
Qed.

Lemma push_timeout_ok_inv v s s1 :
  push_timeout refuses v s = (Ok tt, s1) ->
  refuses (driver_calls s) v = None
  /\ s1 = {| timeouts := v :: timeouts s;
             driver_script_timeout := v;
             driver_calls := driver_calls s ++ [v] |}.
Proof.
  intros Hrun. destruct (refuses (driver_calls s) v) as [e |] eqn:Hr.
  - rewrite (push_timeout_refused v s e Hr) in Hrun. discriminate.
  - rewrite (push_timeout_accepted v s Hr) in Hrun.
    injection Hrun as <-. now split.
Qed.

Lemma pop_timeout_single x s :
  timeouts s = [x] ->
  pop_timeout refuses s =
  (Raise (Exception "can't pop when there is only one element on the stack"),
   s).
Proof. intros Hts. unfold pop_timeout. rewrite Hts. reflexivity. Qed.

Lemma pop_timeout_accepted x y rest s :
  timeouts s = x :: y :: rest ->
  refuses (driver_calls s) y = None ->
  pop_timeout refuses s =
  (Ok x, {| timeouts := y :: rest;
            driver_script_timeout := y;
            driver_calls := driver_calls s ++ [y] |}).
Proof.
  intros Hts Hacc.
  unfold pop_timeout, bind, timeouts_at, set_script_timeout, pop_front.
  rewrite Hts. cbn [List.length Nat.eqb nth_error]. rewrite Hacc.
  cbn [timeouts]. now rewrite Hts.
Qed.

Lemma pop_timeout_refused x y rest s e :
  timeouts s = x :: y :: rest ->
  refuses (driver_calls s) y = Some e ->
  pop_timeout refuses s =
  (Raise e, {| timeouts := timeouts s;
               driver_script_timeout := driver_script_timeout s;
               driver_calls := driver_calls s ++ [y] |}).
Proof.
  intros Hts Href.
  unfold pop_timeout, bind, timeouts_at, set_script_timeout, pop_front.
  rewrite Hts. cbn [List.length Nat.eqb nth_error]. rewrite Href.
  cbn [timeouts driver_script_timeout driver_calls]. now rewrite ?Hts.
Qed.

Lemma pop_timeout_ok_inv x s s2 :
  pop_timeout refuses s = (Ok x, s2) ->
  exists y rest,
    timeouts s = x :: y :: rest
    /\ refuses (driver_calls s) y = None
    /\ s2 = {| timeouts := y :: rest;
               driver_script_timeout := y;
               driver_calls := driver_calls s ++ [y] |}.
Proof.
  intros Hrun. destruct (timeouts s) as [| x' [| y rest]] eqn:Hts.
  - unfold pop_timeout, bind, timeouts_at in Hrun. rewrite Hts in Hrun.
    discriminate.
  - rewrite (pop_timeout_single x' s Hts) in Hrun. discriminate.
  - destruct (refuses (driver_calls s) y) as [e |] eqn:Hr.
    + rewrite (pop_timeout_refused x' y rest s e Hts Hr) in Hrun.
      discriminate.
    + rewrite (pop_timeout_accepted x' y rest s Hts Hr) in Hrun.
      injection Hrun as <- <-. exists y, rest. now repeat split.
Qed.

(** Whatever the driver answers, [pop_timeout] removes the front value or
    leaves the stack as it is, and it leaves at least one value. *)
Lemma pop_timeout_timeouts s :
  timeouts s <> [] ->
  timeouts (snd (pop_timeout refuses s)) <> []
  /\ (timeouts (snd (pop_timeout refuses s)) = timeouts s
      \/ exists x, timeouts s = x :: timeouts (snd (pop_timeout refuses s))).
Proof.
  intros Hne. destruct (timeouts s) as [| x [| y rest]] eqn:Hts;
    [congruence | |].
  - rewrite (pop_timeout_single x s Hts). cbn [snd]. rewrite Hts.
    split; [discriminate | now left].
  - destruct (refuses (driver_calls s) y) as [e |] eqn:Hr.
    + rewrite (pop_timeout_refused x y rest s e Hts Hr). cbn [snd timeouts].
      rewrite Hts. split; [discriminate | now left].
    + rewrite (pop_timeout_accepted x y rest s Hts Hr). cbn [snd timeouts].
      split; [discriminate | right; now exists x].
Qed.

(** The stack of a reachable state is not empty. *)
Lemma reachable_not_empty s : reachable refuses s -> timeouts s <> [].
Proof.
  induction 1 as [d | v s _ _ | s _ IH].
  - discriminate.
  - rewrite push_timeout_timeouts. discriminate.
  - now apply pop_timeout_timeouts.
Qed.

(** A call that returns leaves the driver in step with the stack, from
    any state. *)
Lemma push_timeout_in_step v s s1 :
  push_timeout refuses v s = (Ok tt, s1) -> front_is_active s1.
Proof.
  intros Hrun. apply push_timeout_ok_inv in Hrun. destruct Hrun as [_ ->].
  exists v, (timeouts s). now split.
Qed.

Lemma pop_timeout_in_step x s s2 :
  pop_timeout refuses s = (Ok x, s2) -> front_is_active s2.
Proof.
  intros Hrun. apply pop_timeout_ok_inv in Hrun.
  destruct Hrun as (y & rest & _ & _ & ->). exists y, rest. now split.
Qed.

(** C1: when [push_timeout v] returns, [v] is the front of the stack and
    the driver's script timeout; when the [pop_timeout] that follows
    returns, it returns [v], gives back the stack from before the push and
    has set the driver's timeout to the front of that stack, which is the
    driver's timeout from before the push when the driver was in step
    with the stack.  In a reachable state both calls return as soon as
    the driver accepts the two values it is asked to set. *)
Theorem push_then_pop_restores v s :
  (forall s1,
     push_timeout refuses v s = (Ok tt, s1) ->
     timeout s1 = (Ok v, s1)
     /\ timeouts s1 = v :: timeouts s
     /\ driver_script_timeout s1 = v
     /\ forall x s2,
          pop_timeout refuses s1 = (Ok x, s2) ->
          x = v
          /\ timeouts s2 = timeouts s
          /\ hd_error (timeouts s) = Some (driver_script_timeout s2)
          /\ (front_is_active s ->
              driver_script_timeout s2 = driver_script_timeout s))
  /\ (reachable refuses s ->
      refuses (driver_calls s) v = None ->
      (forall y, hd_error (timeouts s) = Some y ->
                 refuses (driver_calls s ++ [v]) y = None) ->
      exists s1 s2,
        push_timeout refuses v s = (Ok tt, s1)
        /\ pop_timeout refuses s1 = (Ok v, s2)).
Proof.
  split.
  - intros s1 Hpush. apply push_timeout_ok_inv in Hpush.
    destruct Hpush as [_ ->].
    split; [reflexivity |]. split; [reflexivity |]. split; [reflexivity |].
    intros x s2 Hpop. apply pop_timeout_ok_inv in Hpop.
    destruct Hpop as (y & rest & Hts & _ & ->).
    cbn [timeouts] in Hts. injection Hts as <- Hts.
    cbn [timeouts driver_script_timeout]. rewrite Hts.
    split; [reflexivity |]. split; [reflexivity |]. split; [reflexivity |].
    intros (x' & rest' & Hts' & Hd).
    rewrite Hts' in Hts. injection Hts as -> _. now symmetry.
  - intros Hr Hacc Hback.
    pose proof (reachable_not_empty s Hr) as Hne.
    destruct (timeouts s) as [| y rest] eqn:Hts; [congruence |].
    eexists _, _. split; [now apply push_timeout_accepted |].
    apply (pop_timeout_accepted v y rest).
    + cbn [timeouts]. now rewrite Hts.
    + cbn [driver_calls]. now apply Hback.
Qed.

(** C2: with exactly one element on the stack [pop_timeout] raises, and
    it leaves the stack and the driver's script timeout as they were. *)
Theorem pop_timeout_last_raises s :
  List.length (timeouts s) = 1 ->
  pop_timeout refuses s =
  (Raise (Exception "can't pop when there is only one element on the stack"),
   s).
Proof.
  intros Hlen. unfold pop_timeout. rewrite Hlen. reflexivity.
Qed.

(** The scope on its path without a driver error. *)
Lemma local_timeout_returns (A : Type) v (body : M (util T) A)
      s s1 r s2 y :
  push_timeout refuses v s = (Ok tt, s1) ->
  body s1 = (r, s2) ->
  timeouts s2 = timeouts s1 ->
  hd_error (timeouts s) = Some y ->
  refuses (driver_calls s2) y = None ->
  exists s3,
    local_timeout refuses v body s = (r, s3)
    /\ timeouts s3 = timeouts s
    /\ driver_script_timeout s3 = y
    /\ driver_calls s3 = (driver_calls s2 ++ [y])%list.
Proof.
  intros Hpush Hbody Hkeep Hhd Hacc.
  destruct (timeouts s) as [| y' rest] eqn:Hts; [discriminate |].
  injection Hhd as ->.
  assert (Hts2 : timeouts s2 = v :: y :: rest).
  { rewrite Hkeep. apply push_timeout_ok_inv in Hpush.
    destruct Hpush as [_ ->]. cbn [timeouts]. now rewrite Hts. }
  eexists. split.
  - unfold local_timeout, bind, try_finally. rewrite Hpush, Hbody.
    rewrite (pop_timeout_accepted v y rest s2 Hts2 Hacc). reflexivity.
  - cbn [timeouts driver_script_timeout driver_calls]. now repeat split.
Qed.

(** C9: when the push at the entry of [local_timeout v] returns, the body
    runs and [pop_timeout] is called once after it, whatever the outcome
    [r] of the body, a value or an exception.  When the body hands the
    stack back with the values it received and the driver accepts the call
    of the exit, the scope ends with the outcome of the body, the stack it
    was entered with, and the front of that stack as the driver's timeout,
    which is the timeout from before the scope when the driver was in step
    with the stack. *)
Theorem local_timeout_restores (A : Type) v (body : M (util T) A)
        s s1 r s2 y :
  push_timeout refuses v s = (Ok tt, s1) ->
  body s1 = (r, s2) ->
  timeouts s2 = timeouts s1 ->
  hd_error (timeouts s) = Some y ->
  refuses (driver_calls s2) y = None ->
  exists s3,
    local_timeout refuses v body s = (r, s3)
    /\ timeouts s3 = timeouts s
    /\ driver_script_timeout s3 = y
    /\ driver_calls s3 = (driver_calls s2 ++ [y])%list
    /\ (front_is_active s ->
        driver_script_timeout s3 = driver_script_timeout s).
Proof.
  intros Hpush Hbody Hkeep Hhd Hacc.
  destruct (local_timeout_returns A v body s s1 r s2 y
              Hpush Hbody Hkeep Hhd Hacc) as (s3 & Hrun & Hts3 & Hd3 & Hc3).
  exists s3. split; [exact Hrun |]. split; [exact Hts3 |].
  split; [exact Hd3 |]. split; [exact Hc3 |].
  intros (x & rest & Hts & Hd). rewrite Hts in Hhd. injection Hhd as <-.
  congruence.
Qed.

End TimeoutStackFacts.

(** A driver that refuses negative timeouts: [push_timeout(-1)] on a new
    [Util(driver, 2)] raises and leaves [-1] at the front of the stack
    while the driver's timeout stays 2.  A driver that fails on one call:
    after a failed [push_timeout(5)] the stack is [5, 2] with the driver at
    2; from this reachable state [push_timeout(9)] and [pop_timeout()]
    both return, and the driver's timeout ends at 5, not at 2. *)
Lemma push_then_pop_restores_counterexample :
  (TimeoutStack.construct TimeoutStack.refuses_negative 2%Z
   = Ok (TimeoutStack.init 2%Z)
   /\ TimeoutStack.reachable TimeoutStack.refuses_negative
        (TimeoutStack.init 2%Z)
   /\ TimeoutStack.push_timeout TimeoutStack.refuses_negative (-1)%Z
        (TimeoutStack.init 2%Z)
      = (Raise (WebDriverException "invalid argument"),
         {| TimeoutStack.timeouts := [(-1)%Z; 2%Z];
            TimeoutStack.driver_script_timeout := 2%Z;
            TimeoutStack.driver_calls := [2%Z; (-1)%Z] |})
   /\ TimeoutStack.driver_script_timeout
        (snd (TimeoutStack.push_timeout TimeoutStack.refuses_negative (-1)%Z
                (TimeoutStack.init 2%Z))) <> (-1)%Z)
  /\ (let s := snd (TimeoutStack.push_timeout (TimeoutStack.fails_call 1) 5%Z
                      (TimeoutStack.init 2%Z)) in
      let s1 := snd (TimeoutStack.push_timeout (TimeoutStack.fails_call 1)
                       9%Z s) in
      let s2 := snd (TimeoutStack.pop_timeout (TimeoutStack.fails_call 1)
                       s1) in
      TimeoutStack.reachable (TimeoutStack.fails_call 1) s
      /\ TimeoutStack.timeouts s = [5%Z; 2%Z]
      /\ TimeoutStack.driver_script_timeout s = 2%Z
      /\ fst (TimeoutStack.push_timeout (TimeoutStack.fails_call 1) 9%Z s)
         = Ok tt
      /\ fst (TimeoutStack.pop_timeout (TimeoutStack.fails_call 1) s1)
         = Ok 9%Z
      /\ TimeoutStack.driver_script_timeout s2 = 5%Z
      /\ TimeoutStack.driver_script_timeout s2
         <> TimeoutStack.driver_script_timeout s).
Proof.
  split.
  - split; [reflexivity |]. split; [apply TimeoutStack.reach_init |].
    split; [reflexivity |]. cbn. discriminate.
  - cbv zeta. split.
    + apply TimeoutStack.reach_push, TimeoutStack.reach_init.
    + repeat (split; [reflexivity |]). cbn. discriminate.
Qed.

Lemma push_then_pop_restores_witness :
  TimeoutStack.reachable TimeoutStack.refuses_negative (TimeoutStack.init 2%Z)
  /\ TimeoutStack.refuses_negative [2%Z] 5%Z = None
  /\ (forall y, hd_error [2%Z] = Some y ->
                TimeoutStack.refuses_negative [2%Z; 5%Z] y = None)
  /\ exists s1 s2,
       TimeoutStack.push_timeout TimeoutStack.refuses_negative 5%Z
         (TimeoutStack.init 2%Z) = (Ok tt, s1)
       /\ TimeoutStack.pop_timeout TimeoutStack.refuses_negative s1
          = (Ok 5%Z, s2).
Proof.
  assert (Hback : forall y, hd_error [2%Z] = Some y ->
                    TimeoutStack.refuses_negative [2%Z; 5%Z] y = None).
  { intros y Hy. injection Hy as <-. reflexivity. }
  split; [apply TimeoutStack.reach_init |]. split; [reflexivity |].
  split; [exact Hback |].
  exact (proj2 (push_then_pop_restores Z TimeoutStack.refuses_negative 5%Z
                  (TimeoutStack.init 2%Z))
           (TimeoutStack.reach_init _ _ 2%Z) eq_refl Hback).
Defined.

Lemma pop_timeout_last_raises_witness :
  List.length (TimeoutStack.timeouts (TimeoutStack.init 2%Z)) = 1
  /\ TimeoutStack.pop_timeout TimeoutStack.refuses_negative
       (TimeoutStack.init 2%Z) =
     (Raise (Exception "can't pop when there is only one element on the stack"),
      TimeoutStack.init 2%Z).
Proof.
  split; [reflexivity |].
  apply (pop_timeout_last_raises Z TimeoutStack.refuses_negative
           (TimeoutStack.init 2%Z)).
  reflexivity.
Defined.

(** The scope does not give the stack back when the driver refuses the
    value at the entry (the body does not run and nothing is popped), when
    the driver fails on the call of the exit (the pushed value is not
    popped), or when the body pushes a value that it does not pop. *)
Lemma local_timeout_restores_counterexample :
  TimeoutStack.local_timeout TimeoutStack.refuses_negative (-1)%Z (ret tt)
    (TimeoutStack.init 2%Z)
  = (Raise (WebDriverException "invalid argument"),
     {| TimeoutStack.timeouts := [(-1)%Z; 2%Z];
        TimeoutStack.driver_script_timeout := 2%Z;
        TimeoutStack.driver_calls := [2%Z; (-1)%Z] |})
  /\ TimeoutStack.local_timeout (TimeoutStack.fails_call 2) 5%Z (ret tt)
       (TimeoutStack.init 2%Z)
     = (Raise (WebDriverException "connection lost"),
        {| TimeoutStack.timeouts := [5%Z; 2%Z];
           TimeoutStack.driver_script_timeout := 5%Z;
           TimeoutStack.driver_calls := [2%Z; 5%Z; 2%Z] |})
  /\ TimeoutStack.local_timeout TimeoutStack.always_accepts 5%Z
       (TimeoutStack.push_timeout TimeoutStack.always_accepts 9%Z)
       (TimeoutStack.init 2%Z)
     = (Ok tt,
        {| TimeoutStack.timeouts := [5%Z; 2%Z];
           TimeoutStack.driver_script_timeout := 5%Z;
           TimeoutStack.driver_calls := [2%Z; 5%Z; 9%Z; 5%Z] |})
  /\ [(-1)%Z; 2%Z] <> TimeoutStack.timeouts (TimeoutStack.init 2%Z)
  /\ [5%Z; 2%Z] <> TimeoutStack.timeouts (TimeoutStack.init 2%Z).
Proof.
  split; [reflexivity |]. split; [reflexivity |]. split; [reflexivity |].
  split; cbn; discriminate.
Qed.

Lemma local_timeout_restores_witness :
  let s1 := {| TimeoutStack.timeouts := [5%Z; 2%Z];
               TimeoutStack.driver_script_timeout := 5%Z;
               TimeoutStack.driver_calls := [2%Z; 5%Z] |} in
  TimeoutStack.push_timeout TimeoutStack.refuses_negative 5%Z
    (TimeoutStack.init 2%Z) = (Ok tt, s1)
  /\ throw (A := unit) (Exception "boom") s1 = (Raise (Exception "boom"), s1)
  /\ hd_error (TimeoutStack.timeouts (TimeoutStack.init 2%Z)) = Some 2%Z
  /\ TimeoutStack.refuses_negative (TimeoutStack.driver_calls s1) 2%Z = None
  /\ exists s3,
       TimeoutStack.local_timeout TimeoutStack.refuses_negative 5%Z
         (throw (A := unit) (Exception "boom")) (TimeoutStack.init 2%Z)
       = (Raise (Exception "boom"), s3)
       /\ TimeoutStack.timeouts s3 = [2%Z]
       /\ TimeoutStack.driver_script_timeout s3 = 2%Z.
Proof.
  cbv zeta.
  split; [reflexivity |]. split; [reflexivity |]. split; [reflexivity |].
  split; [reflexivity |].
  destruct (local_timeout_restores Z TimeoutStack.refuses_negative unit 5%Z
              (throw (Exception "boom")) (TimeoutStack.init 2%Z)
              {| TimeoutStack.timeouts := [5%Z; 2%Z];
                 TimeoutStack.driver_script_timeout := 5%Z;
                 TimeoutStack.driver_calls := [2%Z; 5%Z] |}
              (Raise (Exception "boom"))
              {| TimeoutStack.timeouts := [5%Z; 2%Z];
                 TimeoutStack.driver_script_timeout := 5%Z;
                 TimeoutStack.driver_calls := [2%Z; 5%Z] |}
              2%Z eq_refl eq_refl eq_refl eq_refl eq_refl)
    as (s3 & Hrun & Hts & Hd & _).
  exists s3. split; [exact Hrun |]. split; [exact Hts | exact Hd].
Defined.

(** ** [locations_within] *)

Section LocationsFacts.

Import Locations.

Variable value : Type.
Variable py_int : value -> result Z.

Implicit Types (a b items : dict value) (key k : string) (ret : string).

Lemma append_nil_r (s : string) : s ++ "" = s.
Proof. induction s as [| c s IH]; simpl; [reflexivity | now rewrite IH]. Qed.

Lemma append_assoc (s1 s2 s3 : string) : (s1 ++ s2) ++ s3 = s1 ++ s2 ++ s3.
Proof. induction s1 as [| c s1 IH]; simpl; [reflexivity | now rewrite IH]. Qed.


Lemma has_key_In b k : has_key b k = true <-> In k (keys b).
Proof.
  unfold has_key. rewrite existsb_exists. split.
  - intros (x & Hin & Heq). apply String.eqb_eq in Heq. now subst.
  - intros Hin. exists k. split; [assumption | apply String.eqb_refl].
Qed.

Lemma has_key_false b k : has_key b k = false <-> ~ In k (keys b).
Proof.
  rewrite <- has_key_In. destruct (has_key b k); split; congruence.
Qed.

Lemma keys_delitem b key k :
  In k (keys (delitem b key)) <-> In k (keys b) /\ key <> k.
Proof.
  unfold keys, delitem. rewrite !in_map_iff. split.
  - intros ([k' v] & Hk & Hin). simpl in Hk. subst k'.
    apply filter_In in Hin. destruct Hin as [Hin Hneq]. simpl in Hneq.
    apply negb_true_iff, String.eqb_neq in Hneq.
    split; [exists (k, v); now split | assumption].
  - intros [([k' v] & Hk & Hin) Hneq]. simpl in Hk. subst k'.
    exists (k, v). split; [reflexivity |].
    apply filter_In. split; [assumption |]. simpl.
    now apply negb_true_iff, String.eqb_neq.
Qed.

Lemma getitem_delitem b key k :
  key <> k -> getitem (delitem b key) k = getitem b k.
Proof.
  intros Hneq. unfold getitem, delitem.
  induction b as [| [k' v] b IH]; simpl; [reflexivity |].
  destruct (String.eqb_spec key k') as [-> | Hk]; simpl.
  - destruct (String.eqb_spec k k') as [-> | _]; [congruence | exact IH].
  - destruct (String.eqb_spec k k'); [reflexivity | exact IH].
Qed.

Lemma getitem_has_key b k :
  has_key b k = true -> exists v, getitem b k = Ok v /\ In (k, v) b.
Proof.
  unfold has_key, getitem, keys.
  induction b as [| [k' v] b IH]; simpl; [discriminate |].
  destruct (String.eqb_spec k k') as [-> | Hk]; simpl.
  - intros _. exists v. split; [reflexivity | now left].
  - intros H. destruct (IH H) as (v' & Hget & Hin).
    exists v'. split; [assumption | now right].
Qed.

Lemma coercible_delitem b key :
  coercible py_int b -> coercible py_int (delitem b key).
Proof.
  intros Hb kv Hin. apply Hb. unfold delitem in Hin.
  now apply filter_In in Hin.
Qed.

Lemma coercible_tail kv items :
  coercible py_int (kv :: items) -> coercible py_int items.
Proof. intros H x Hin. apply H. now right. Qed.

Lemma has_key_cons key (v : value) items k :
  has_key ((key, v) :: items) k = (String.eqb k key || has_key items k)%bool.
Proof. reflexivity. Qed.

(** The working copy of [b] once the loop has visited [items]. *)
Lemma leftover_cons key v items b :
  leftover items (delitem b key) = leftover ((key, v) :: items) b.
Proof.
  unfold leftover, delitem. induction b as [| [k' v'] b IH].
  - reflexivity.
  - cbn [filter fst]. rewrite has_key_cons, (String.eqb_sym k' key).
    destruct (String.eqb key k'); cbn [negb orb filter fst].
    + exact IH.
    + destruct (has_key items k'); cbn [negb]; now rewrite IH.
Qed.

Lemma leftover_nil b : leftover [] b = b.
Proof.
  unfold leftover. induction b as [| kv b IH]; [reflexivity |].
  cbn [filter]. replace (has_key [] (fst kv)) with false by reflexivity.
  cbn [negb]. now rewrite IH.
Qed.

Lemma describe_delitem b key kv :
  key <> fst kv -> describe py_int (delitem b key) kv = describe py_int b kv.
Proof.
  intros Hneq. unfold describe, int_at. now rewrite getitem_delitem.
Qed.

Lemma exceeds_delitem b key tolerance kv :
  key <> fst kv ->
  exceeds py_int (delitem b key) tolerance kv = exceeds py_int b tolerance kv.
Proof.
  intros Hneq. unfold exceeds, int_at. now rewrite getitem_delitem.
Qed.

Lemma differences_delitem items b key tolerance :
  ~ In key (keys items) ->
  differences py_int items (delitem b key) tolerance =
  differences py_int items b tolerance.
Proof.
  intros Hnot. unfold differences. f_equal.
  induction items as [| kv items IH]; simpl; [reflexivity |].
  assert (Hneq : key <> fst kv) by (intros ->; apply Hnot; now left).
  assert (Hrest : ~ In key (keys items)) by (intros H; apply Hnot; now right).
  rewrite exceeds_delitem by assumption.
  destruct (exceeds py_int b tolerance kv); simpl.
  - rewrite describe_delitem by assumption. now rewrite IH.
  - now apply IH.
Qed.

(** One round of the loop when the key is in [b] and both values
    convert. *)
Lemma compare_items_step key v items b tolerance ret :
  has_key b key = true ->
  coercible py_int ((key, v) :: items) ->
  coercible py_int b ->
  compare_items py_int ((key, v) :: items) b tolerance ret =
  compare_items py_int items (delitem b key) tolerance
    (ret ++ (if exceeds py_int b tolerance (key, v)
             then describe py_int b (key, v) else "")).
Proof.
  intros Hk Ha Hb. simpl. rewrite Hk. simpl.
  destruct (Ha (key, v) (or_introl eq_refl)) as (za & Hza). simpl in Hza.
  destruct (getitem_has_key b key Hk) as (bv & Hget & Hin).
  destruct (Hb (key, bv) Hin) as (zb & Hzb). simpl in Hzb.
  unfold exceeds, describe, int_at, int_of. simpl.
  rewrite Hza, Hget. cbn [and_then]. rewrite Hzb. cbn [and_then].
  destruct (Z.abs (za - zb) >? tolerance)%Z;
    [reflexivity | now rewrite append_nil_r].
Qed.

(** The loop on dictionaries whose keys are all in [b]. *)
Lemma compare_items_all_present items : forall b tolerance ret,
  NoDup (keys items) ->
  (forall k, In k (keys items) -> In k (keys b)) ->
  coercible py_int items ->
  coercible py_int b ->
  compare_items py_int items b tolerance ret =
  Ok (ret ++ differences py_int items b tolerance, leftover items b).
Proof.
  induction items as [| [key v] items IH]; intros b tolerance ret Hnd Hsub Ha Hb.
  - simpl. unfold differences. simpl. now rewrite append_nil_r, leftover_nil.
  - inversion Hnd as [| ? ? Hnotin Hnd']; subst.
    assert (Hk : has_key b key = true)
      by (apply has_key_In, Hsub; now left).
    rewrite compare_items_step by assumption.
    rewrite IH; try assumption.
    + rewrite (leftover_cons key v), differences_delitem by assumption.
      rewrite append_assoc. unfold differences. simpl.
      destruct (exceeds py_int b tolerance (key, v)); reflexivity.
    + intros k Hin. apply keys_delitem. split.
      * apply Hsub. now right.
      * intros ->. contradiction.
    + eapply coercible_tail; eassumption.
    + now apply coercible_delitem.
Qed.


(** A loop that ends normally has found every visited key in [b] and
    leaves the items of [b] under the other keys. *)
Lemma compare_items_ok items : forall b tolerance ret r b',
  compare_items py_int items b tolerance ret = Ok (r, b') ->
  (forall k, In k (keys items) -> In k (keys b)) /\ b' = leftover items b.
Proof.
  induction items as [| [key v] items IH]; intros b tolerance ret r b' Hrun.
  - simpl in Hrun. injection Hrun as _ <-.
    split; [intros k [] | now rewrite leftover_nil].
  - simpl in Hrun. destruct (has_key b key) eqn:Hk; [| discriminate].
    simpl in Hrun.
    destruct (py_int v) as [va |]; [| discriminate].
    destruct (getitem b key) as [bv |]; [| discriminate].
    simpl in Hrun.
    destruct (py_int bv) as [vb |]; [| discriminate].
    simpl in Hrun. apply IH in Hrun. destruct Hrun as [Hsub ->].
    split.
    + intros k [<- | Hin]; [now apply has_key_In |].
      now apply (keys_delitem b key k), Hsub.
    + apply leftover_cons.
Qed.

Lemma keys_leftover a b k :
  In k (keys (leftover a b)) <-> In k (keys b) /\ ~ In k (keys a).
Proof.
  unfold leftover, keys at 1 2. rewrite !in_map_iff. split.
  - intros ([k' v] & Hk & Hin). simpl in Hk; subst k'.
    apply filter_In in Hin. destruct Hin as [Hin Hout]. simpl in Hout.
    apply negb_true_iff, has_key_false in Hout.
    split; [exists (k, v); now split | assumption].
  - intros [([k' v] & Hk & Hin) Hout]. simpl in Hk; subst k'.
    exists (k, v). split; [reflexivity |].
    apply filter_In. split; [assumption |]. simpl.
    now apply negb_true_iff, has_key_false.
Qed.

Lemma leftover_empty a b :
  (forall k, In k (keys b) -> In k (keys a)) -> leftover a b = [].
Proof.
  intros Hsub. destruct (leftover a b) as [| [k v] l] eqn:Hl; [reflexivity |].
  assert (Hin : In k (keys (leftover a b))) by (rewrite Hl; now left).
  apply keys_leftover in Hin. destruct Hin as [Hin Hout].
  elim Hout. now apply Hsub.
Qed.

Lemma locations_within_run a b tolerance :
  NoDup (keys a) ->
  (forall k, In k (keys a) -> In k (keys b)) ->
  coercible py_int a ->
  coercible py_int b ->
  locations_within py_int a b tolerance =
  match leftover a b with
  | [] => Ok (differences py_int a b tolerance)
  | _ :: _ =>
      Raise (ValueError ("keys in b not seen in a: "
                         ++ String.concat ", " (keys (leftover a b))))
  end.
Proof.
  intros Hnd Hsub Ha Hb. unfold locations_within.
  rewrite compare_items_all_present by assumption.
  reflexivity.
Qed.

Lemma describe_not_empty b kv : describe py_int b kv <> "".
Proof. unfold describe, format_diff. discriminate. Qed.



(** C10: when [locations_within] returns, with an empty string or not,
    [a] and [b] have the same keys. *)
Theorem locations_within_returns_same_keys a b tolerance ret :
  locations_within py_int a b tolerance = Ok ret ->
  forall k, In k (keys a) <-> In k (keys b).
Proof.
  unfold locations_within. intros Hrun k.
  destruct (compare_items py_int a b tolerance "") as [[r b'] |] eqn:Hloop;
    [| discriminate].
  apply compare_items_ok in Hloop. destruct Hloop as [Hsub ->].
  simpl in Hrun. split; [apply Hsub |]. intros Hin.
  destruct (leftover a b) eqn:Hl; [| discriminate].
  destruct (has_key a k) eqn:Hk; [now apply has_key_In |].
  apply has_key_false in Hk.
  assert (Hk' : In k (keys (leftover a b)))
    by (apply keys_leftover; now split).
  rewrite Hl in Hk'. destruct Hk'.
Qed.

End LocationsFacts.

(** C4: the loop has no early exit.  After a first key out of tolerance
    the later keys are still visited: a key that [b] lacks there raises,
    a second key out of tolerance adds its description, and the keys left
    in [b] are still checked. *)
Theorem locations_within_visits_every_key :
  Locations.locations_within Locations.int_of_int
    [("x", 10%Z); ("y", 2%Z)] [("x", 15%Z)] 2
  = Raise (ValueError "b does not have the key: y")
  /\ Locations.locations_within Locations.int_of_int
       [("x", 10%Z); ("y", 20%Z)] [("x", 15%Z); ("y", 30%Z)] 2
     = Ok "key x differs: 10 15key y differs: 20 30"
  /\ Locations.locations_within Locations.int_of_int
       [("x", 10%Z)] [("x", 15%Z); ("y", 1%Z)] 2
     = Raise (ValueError "keys in b not seen in a: y").
Proof. repeat split. Qed.

Lemma int_of_int_coercible (d : Locations.dict Z) :
  Locations.coercible Locations.int_of_int d.
Proof. intros kv _. exists (snd kv). reflexivity. Qed.



Lemma locations_within_returns_same_keys_witness :
  Locations.locations_within Locations.int_of_int
    [("x", 10%Z); ("y", 1%Z)] [("y", 1%Z); ("x", 15%Z)] 2
  = Ok "key x differs: 10 15"
  /\ (forall k, In k (Locations.keys [("x", 10%Z); ("y", 1%Z)])
                <-> In k (Locations.keys [("y", 1%Z); ("x", 15%Z)])).
Proof.
  split; [reflexivity |].
  apply (locations_within_returns_same_keys Z Locations.int_of_int
           [("x", 10%Z); ("y", 1%Z)] [("y", 1%Z); ("x", 15%Z)] 2%Z
           "key x differs: 10 15").
  reflexivity.
Defined.

(** ** [visible_to_user] *)

Section VisibilityFacts.

Import Visibility.

Variable p : page.

Implicit Types (s : browser) (el element : elem) (ignorable : list selector).

Lemma outside_viewport_spec pos sz win :
  outside_viewport pos sz win = true <-> entirely_outside pos sz win.
Proof.
  unfold outside_viewport, entirely_outside.
  rewrite !orb_true_iff, !Z.ltb_lt, !Z.gtb_lt. lia.
Qed.

(** With sizes that are not negative, the test of the code is the
    geometric one: the box of the element and the viewport, borders
    included, have no point in common. *)
Lemma entirely_outside_no_common_point pos sz win :
  (0 <= height sz)%Z -> (0 <= width sz)%Z ->
  (0 <= height win)%Z -> (0 <= width win)%Z ->
  entirely_outside pos sz win <->
  (forall x y, ~ (in_box pos sz x y /\ in_viewport win x y)).
Proof.
  unfold entirely_outside, in_box, in_viewport. intros Hh Hw HH HW. split.
  - intros Hout x y. lia.
  - intros Hno.
    specialize (Hno (Z.max (left pos) 0) (Z.max (top pos) 0)). lia.
Qed.

(** The corner tests of the script, in a browser whose [contains] checks
    the type of its argument: the answer is [true] when the top-left
    corner finds the target itself, and a TypeError in every other case.
    The state is not changed. *)
Lemma corner_tests_type_checked el s :
  contains_type_checks p = true ->
  let r := bounding_client_rect p (display s) el in
  or_else (corner p el (rect_left r) (rect_top r))
    (or_else (corner p el (rect_left r) (rect_bottom r))
    (or_else (corner p el (rect_right r) (rect_top r))
             (corner p el (rect_right r) (rect_bottom r)))) s =
  (match element_from_point p (display s) (rect_left r) (rect_top r) with
   | Some n =>
       if Nat.eqb n el then Ok true
       else Raise (TypeError "parameter 1 is not of type 'Node'")
   | None => Raise (TypeError "parameter 1 is not of type 'Node'")
   end, s).
Proof.
  intros Hstrict r.
  unfold or_else, corner, efp_is, contains, bind, ret, throw.
  rewrite Hstrict.
  destruct (element_from_point p (display s) (rect_left r) (rect_top r))
    as [n |]; [destruct (Nat.eqb n el) |]; reflexivity.
Qed.

(** The same tests in an engine whose [contains] answers [false] on a
    boolean: the answer is whether one of the four corners finds the
    target itself.  An element found inside the target does not count in
    either kind of engine. *)
Lemma corner_tests_lenient el s :
  contains_type_checks p = false ->
  let r := bounding_client_rect p (display s) el in
  let is_target x y :=
    match element_from_point p (display s) x y with
    | Some n => Nat.eqb n el
    | None => false
    end in
  or_else (corner p el (rect_left r) (rect_top r))
    (or_else (corner p el (rect_left r) (rect_bottom r))
    (or_else (corner p el (rect_right r) (rect_top r))
             (corner p el (rect_right r) (rect_bottom r)))) s =
  (Ok (is_target (rect_left r) (rect_top r)
       || is_target (rect_left r) (rect_bottom r)
       || is_target (rect_right r) (rect_top r)
       || is_target (rect_right r) (rect_bottom r)), s).
Proof.
  intros Hlenient r is_target. subst is_target.
  generalize (rect_left r) (rect_top r) (rect_right r) (rect_bottom r).
  intros x0 y0 x1 y1.
  unfold or_else, corner, efp_is, contains, bind, ret, throw.
  rewrite Hlenient. cbv beta.
  destruct (element_from_point p (display s) x0 y0) as [n1 |];
    [destruct (Nat.eqb n1 el); [reflexivity |] |];
    (destruct (element_from_point p (display s) x0 y1) as [n2 |];
     [destruct (Nat.eqb n2 el); [reflexivity |] |]);
    (destruct (element_from_point p (display s) x1 y0) as [n3 |];
     [destruct (Nat.eqb n3 el); [reflexivity |] |]);
    (destruct (element_from_point p (display s) x1 y1) as [n4 |];
     [destruct (Nat.eqb n4 el) |]); reflexivity.
Qed.

(** *** Saving and restoring the [display] values *)

Section Restore.

(** The state in which the script starts. *)
Variable s0 : browser.

Local Abbreviation saved := (saved p s0).
Local Abbreviation matched_by := (matched_by p).
Local Abbreviation uniform := (uniform p s0).

Lemma save_displays_run ignorable :
  save_displays p ignorable s0 = (Ok (map saved ignorable), s0).
Proof.
  induction ignorable as [| x rest IH]; [reflexivity |].
  cbn [save_displays map]. unfold bind at 1. unfold css_get at 1.
  unfold bind at 1. rewrite IH. reflexivity.
Qed.

Lemma restore_displays_run rest : forall before s,
  (forall x, In x rest -> uniform x) ->
  let r := restore_displays p (before ++ map saved rest) rest
             (List.length before) s in
  fst r = Ok tt
  /\ calls (snd r) = calls s
  /\ forall e, display (snd r) e =
               if existsb (matched_by e) rest then display s0 e
               else display s e.
Proof.
  induction rest as [| x rest IH]; intros before s Huni; cbv zeta.
  - repeat split.
  - cbn [restore_displays map]. unfold bind.
    rewrite nth_middle.
    assert (Hrest : forall y, In y rest -> uniform y)
      by (intros y Hy; apply Huni; now right).
    replace (before ++ saved x :: map saved rest)%list
      with ((before ++ [saved x]) ++ map saved rest)%list
      by (now rewrite <- app_assoc).
    replace (S (List.length before))
      with (List.length (before ++ [saved x])%list)
      by (rewrite length_app; simpl; lia).
    destruct (saved x) as [v |] eqn:Hsx; cbn [css_set].
    + unfold set_display at 1.
      destruct (IH (before ++ [Some v])%list
                  {| display := fun e => if existsb (Nat.eqb e) (jquery p x)
                                         then v else display s e;
                     calls := calls s |} Hrest) as (Hok & Hcalls & Hdisp).
      split; [exact Hok |]. split; [exact Hcalls |].
      intros e. rewrite Hdisp. cbn [existsb display].
      destruct (existsb (matched_by e) rest); [now rewrite orb_true_r |].
      rewrite orb_false_r. fold (matched_by e x).
      destruct (matched_by e x) eqn:Hm; [| reflexivity].
      symmetry. now apply (Huni x (or_introl eq_refl)).
    + unfold ret at 1.
      destruct (IH (before ++ [None])%list s Hrest) as (Hok & Hcalls & Hdisp).
      split; [exact Hok |]. split; [exact Hcalls |].
      intros e. rewrite Hdisp. cbn [existsb].
      replace (matched_by e x) with false; [reflexivity |].
      unfold Visibility.matched_by. unfold Visibility.saved in Hsx.
      destruct (jquery p x); [reflexivity | discriminate].
Qed.

(** The [try] block leaves every [display] as it is. *)
Lemma corner_tests_keep_state el s :
  let r := bounding_client_rect p (display s) el in
  snd (or_else (corner p el (rect_left r) (rect_top r))
         (or_else (corner p el (rect_left r) (rect_bottom r))
         (or_else (corner p el (rect_right r) (rect_top r))
                  (corner p el (rect_right r) (rect_bottom r)))) s) = s.
Proof.
  intros r.
  unfold or_else, corner, efp_is, contains, bind, ret, throw.
  destruct (contains_type_checks p);
    repeat match goal with
           | |- context [element_from_point p ?d ?x ?y] =>
               destruct (element_from_point p d x y) as [? |]
           | |- context [Nat.eqb ?n el] => destruct (Nat.eqb n el)
           end; reflexivity.
Qed.

(** When every ignorable selector matches elements that share one
    [display] value, and the hiding step reaches matched elements
    only, the script leaves every [display] as it found it, whether it
    returns or throws. *)
Lemma visible_script_restores el ignorable :
  (forall x, In x ignorable -> uniform x) ->
  (forall e, In e (jquery_array p ignorable) ->
             existsb (matched_by e) ignorable = true) ->
  forall e,
    display (snd (visible_script p el ignorable s0)) e = display s0 e.
Proof.
  intros Huni Hhidden e.
  unfold visible_script. unfold bind at 1. rewrite save_displays_run.
  unfold bind at 1. unfold set_display at 1.
  set (s1 := {| display := _; calls := calls s0 |}).
  unfold try_finally.
  pose proof (corner_tests_keep_state el s1) as Hkeep. cbv zeta in Hkeep.
  destruct (or_else _ _ s1) as [r s2]. cbn [snd] in Hkeep. subst s2.
  destruct (restore_displays_run ignorable [] s1 Huni)
    as (Hok & _ & Hdisp).
  cbn [app List.length] in Hok, Hdisp.
  destruct (restore_displays p (map saved ignorable) ignorable 0 s1)
    as [[u | ex] s3]; cbn [fst snd] in *; [| discriminate].
  rewrite Hdisp.
  destruct (existsb (matched_by e) ignorable) eqn:Hm; [reflexivity |].
  subst s1. cbn [display].
  destruct (existsb (Nat.eqb e) (jquery_array p ignorable)) eqn:Hh;
    [| reflexivity].
  apply existsb_exists in Hh. destruct Hh as (e' & Hin & Heq).
  apply Nat.eqb_eq in Heq. subst e'.
  rewrite (Hhidden e Hin) in Hm. discriminate.
Qed.

End Restore.

(** C8: an element that reports itself as not displayed is answered
    [False] after that one call; an element whose box is entirely outside
    the viewport is answered [False] after the position, size and window
    queries, and the script that tests the corners is not run.  Neither
    changes a [display]. *)
Theorem visible_to_user_cheap_rejections element ignorable s :
  (is_displayed p element = Ok false ->
   visible_to_user p element ignorable s =
   (Ok false,
    {| display := display s;
       calls := calls s ++ [CallIsDisplayed element] |}))
  /\ (forall sz,
        is_displayed p element = Ok true ->
        size p element = Ok sz ->
        entirely_outside (screen_offset p element) sz (window_dims p) ->
        visible_to_user p element ignorable s =
        (Ok false,
         {| display := display s;
            calls := calls s ++ [CallIsDisplayed element;
                                 ScriptScreenPosition element;
                                 CallSize element;
                                 ScriptWindowInnerSize] |})).
Proof.
  split.
  - intros Hd. unfold visible_to_user, bind, log, lift. simpl.
    rewrite Hd. reflexivity.
  - intros sz Hd Hsz Hout. apply outside_viewport_spec in Hout.
    unfold visible_to_user, element_screen_position, get_window_inner_size,
      execute_script, bind, log, lift, ret. simpl.
    rewrite Hd. simpl. rewrite Hsz.
    unfold screen_offset, window_dims in Hout. rewrite Hout.
    rewrite <- !app_assoc. reflexivity.
Qed.

End VisibilityFacts.

(** C6: on a page where the target passes the cheap checks and each of its
    four corners hit-tests to a child of the target, the probe does not
    answer [True]: it raises in a browser whose [contains] checks its
    argument and answers [False] in one that does not.  The variable
    [at_corner] holds the boolean of the comparison, not the element found,
    so the descendant test never sees that element. *)
Theorem visible_to_user_misses_descendants (type_checks : bool) :
  let p := Visibility.page_child_on_top type_checks in
  Visibility.some_corner_hits p (Visibility.display Visibility.blank) 0 = true
  /\ fst (Visibility.visible_to_user p 0 [] Visibility.blank) =
     (if type_checks
      then Raise (WebDriverException "javascript error")
      else Ok false)
  /\ Visibility.calls (snd (Visibility.visible_to_user p 0 [] Visibility.blank))
     = [Visibility.CallIsDisplayed 0; Visibility.ScriptScreenPosition 0;
        Visibility.CallSize 0; Visibility.ScriptWindowInnerSize;
        Visibility.ScriptVisibleToUser 0 []].
Proof.
  destruct type_checks; repeat split.
Qed.

(** C7: on a page where the selector [.overlay] matches a block element
    and, after it, an inline element, a probe that ignores [.overlay]
    leaves the second element a block, whether the probe returns or
    raises and whatever set of elements the hiding step reaches: the value
    saved for a selector is that of its first match, and it is written back
    to all its matches. *)
Theorem visible_to_user_overwrites_display
  (hidden : list Visibility.selector -> list Visibility.elem)
  (type_checks : bool) (hit : option Visibility.elem) :
  let p := Visibility.page_two_overlays hidden type_checks hit in
  let s' := snd (Visibility.visible_to_user p 0 [".overlay"]
                   Visibility.two_overlays_start) in
  Visibility.display Visibility.two_overlays_start 2 = "inline"
  /\ Visibility.display s' 2 = "block"
  /\ In (Visibility.ScriptVisibleToUser 0 [".overlay"]) (Visibility.calls s')
  /\ fst (Visibility.visible_to_user p 0 [".overlay"]
           Visibility.two_overlays_start) =
     match hit with
     | Some 0 => Ok true
     | _ => if type_checks
            then Raise (WebDriverException "javascript error")
            else Ok false
     end.
Proof.
  cbv zeta. split; [reflexivity |].
  unfold Visibility.visible_to_user, Visibility.visible_script,
    Visibility.execute_script, Visibility.element_screen_position,
    Visibility.get_window_inner_size, Visibility.log, Visibility.lift,
    bind, ret, try_finally. cbn.
  destruct hit as [[| n] |]; cbn; destruct type_checks; cbn;
    (split; [reflexivity | split; [intuition | reflexivity]]).
Qed.

(** ** The statements at concrete inputs *)

Lemma visible_to_user_cheap_rejections_witness :
  (Visibility.is_displayed Visibility.page_not_displayed 0 = Ok false
   /\ Visibility.visible_to_user Visibility.page_not_displayed 0 [".overlay"]
        Visibility.blank =
      (Ok false,
       {| Visibility.display := Visibility.display Visibility.blank;
          Visibility.calls := [Visibility.CallIsDisplayed 0] |}))
  /\ (Visibility.is_displayed Visibility.page_scrolled_past 0 = Ok true
      /\ Visibility.entirely_outside
           (Visibility.screen_offset Visibility.page_scrolled_past 0)
           {| Visibility.height := 100; Visibility.width := 100 |}
           (Visibility.window_dims Visibility.page_scrolled_past)
      /\ Visibility.visible_to_user Visibility.page_scrolled_past 0
           [".overlay"] Visibility.blank =
         (Ok false,
          {| Visibility.display := Visibility.display Visibility.blank;
             Visibility.calls :=
               [Visibility.CallIsDisplayed 0;
                Visibility.ScriptScreenPosition 0;
                Visibility.CallSize 0;
                Visibility.ScriptWindowInnerSize] |})).
Proof.
  assert (Hout : Visibility.entirely_outside
                   (Visibility.screen_offset Visibility.page_scrolled_past 0)
                   {| Visibility.height := 100; Visibility.width := 100 |}
                   (Visibility.window_dims Visibility.page_scrolled_past)).
  { unfold Visibility.entirely_outside. simpl. lia. }
  split.
  - split; [reflexivity |].
    exact (proj1 (visible_to_user_cheap_rejections
                    Visibility.page_not_displayed 0 [".overlay"]
                    Visibility.blank) eq_refl).
  - split; [reflexivity |]. split; [exact Hout |].
    exact (proj2 (visible_to_user_cheap_rejections
                    Visibility.page_scrolled_past 0 [".overlay"]
                    Visibility.blank)
             {| Visibility.height := 100; Visibility.width := 100 |}
             eq_refl eq_refl Hout).
Defined.

(** ** More on the timeout stack *)

Section StackRunsFacts.

Import TimeoutStack StackRuns.

Variable T : Type.
Variable refuses : list T -> T -> option exn.

Implicit Types (s : util T) (v w x y : T) (vs rest : list T).

Lemma reaches_reachable d s : reaches refuses d s -> reachable refuses s.
Proof.
  induction 1 as [| v s _ IH | s _ IH].
  - apply reach_init.
  - now apply reach_push.
  - now apply reach_pop.
Qed.

Lemma front_is_active_timeout s :
  front_is_active s -> timeout s = (Ok (driver_script_timeout s), s).
Proof.
  intros (x & rest & Hts & Hd). unfold timeout, timeouts_at.
  rewrite Hts. cbn. now rewrite Hd.
Qed.

(** In a reachable state the stack holds a value, so [Util.timeout]
    returns one, and [pop_timeout] raises nothing but its own exception
    for a stack of one value or the exception of the driver.  After a
    [push_timeout] or a [pop_timeout] that returns, [Util.timeout] is the
    driver's script timeout. *)
Theorem timeout_active_after_return s :
  reachable refuses s ->
  timeouts s <> []
  /\ (exists x, timeout s = (Ok x, s))
  /\ (forall e,
        fst (pop_timeout refuses s) = Raise e ->
        e = Exception "can't pop when there is only one element on the stack"
        \/ exists y, refuses (driver_calls s) y = Some e)
  /\ (forall v s1,
        push_timeout refuses v s = (Ok tt, s1) ->
        timeout s1 = (Ok (driver_script_timeout s1), s1))
  /\ (forall x s2,
        pop_timeout refuses s = (Ok x, s2) ->
        timeout s2 = (Ok (driver_script_timeout s2), s2)).
Proof.
  intros Hr. pose proof (reachable_not_empty T refuses s Hr) as Hne.
  split; [exact Hne |]. split; [| split; [| split]].
  - destruct (timeouts s) as [| x rest] eqn:Hts; [congruence |].
    exists x. unfold timeout, timeouts_at. now rewrite Hts.
  - intros e He. destruct (timeouts s) as [| x [| y rest]] eqn:Hts;
      [congruence | |].
    + rewrite (pop_timeout_single T refuses x s Hts) in He.
      injection He as <-. now left.
    + destruct (refuses (driver_calls s) y) as [e' |] eqn:Hrf.
      * rewrite (pop_timeout_refused T refuses x y rest s e' Hts Hrf) in He.
        injection He as <-. right. now exists y.
      * rewrite (pop_timeout_accepted T refuses x y rest s Hts Hrf) in He.
        discriminate.
  - intros v s1 Hpush.
    now apply front_is_active_timeout, (push_timeout_in_step T refuses v s).
  - intros x s2 Hpop.
    now apply front_is_active_timeout, (pop_timeout_in_step T refuses x s).
Qed.

(** The value given to [__init__] stays at the bottom of the stack. *)
Theorem default_timeout_stays_last d s :
  reaches refuses d s -> exists above, timeouts s = (above ++ [d])%list.
Proof.
  induction 1 as [| v s _ IH | s Hs IH].
  - exists []. reflexivity.
  - destruct IH as (above & Hts). rewrite push_timeout_timeouts.
    exists (v :: above). now rewrite Hts.
  - destruct IH as (above & Hts).
    assert (Hne : timeouts s <> [])
      by (apply (reachable_not_empty T refuses), reaches_reachable with d;
          exact Hs).
    destruct (pop_timeout_timeouts T refuses s Hne) as [Hne' [Hsame | [x Hx]]].
    + exists above. now rewrite Hsame.
    + rewrite Hts in Hx. destruct above as [| x' above].
      * injection Hx as _ Hx. symmetry in Hx. contradiction.
      * injection Hx as _ Hx. exists above. now symmetry.
Qed.

Lemma bind_ok_inv (A B : Type) (m : M (util T) A) (k : A -> M (util T) B)
      s b s' :
  bind m k s = (Ok b, s') ->
  exists a s1, m s = (Ok a, s1) /\ k a s1 = (Ok b, s').
Proof.
  unfold bind. destruct (m s) as [[a | e] s1]; [| discriminate].
  intros Hk. now exists a, s1.
Qed.

Lemma push_all_ok vs : forall s s1,
  push_all refuses vs s = (Ok tt, s1) ->
  timeouts s1 = (rev vs ++ timeouts s)%list
  /\ (vs = [] -> s1 = s)
  /\ (vs <> [] -> front_is_active s1).
Proof.
  induction vs as [| v vs IH]; intros s s1 Hrun.
  - injection Hrun as <-. repeat split; congruence.
  - cbn [push_all] in Hrun. apply bind_ok_inv in Hrun.
    destruct Hrun as ([] & s0 & Hpush & Hrest).
    pose proof (push_timeout_in_step T refuses v s s0 Hpush) as Hstep.
    apply push_timeout_ok_inv in Hpush. destruct Hpush as [_ Hs0].
    apply IH in Hrest. destruct Hrest as (Hts & Hnil & Hcons).
    split; [| split].
    + rewrite Hts, Hs0. cbn [timeouts rev]. now rewrite <- app_assoc.
    + discriminate.
    + intros _. destruct vs as [| v' vs']; [| apply Hcons; discriminate].
      now rewrite (Hnil eq_refl).
Qed.

Lemma pop_n_ok n : forall s l s2,
  pop_n refuses n s = (Ok l, s2) ->
  timeouts s = (l ++ timeouts s2)%list
  /\ List.length l = n
  /\ (n = 0 -> s2 = s)
  /\ (n <> 0 -> front_is_active s2).
Proof.
  induction n as [| n IH]; intros s l s2 Hrun.
  - injection Hrun as <- <-. repeat split; congruence.
  - cbn [pop_n] in Hrun. apply bind_ok_inv in Hrun.
    destruct Hrun as (x & s1 & Hpop & Hrest).
    apply bind_ok_inv in Hrest. destruct Hrest as (l' & s1' & Hrest & Hret).
    injection Hret as <- <-.
    pose proof (pop_timeout_in_step T refuses x s s1 Hpop) as Hstep.
    apply pop_timeout_ok_inv in Hpop.
    destruct Hpop as (y & rest & Hts & _ & Hs1).
    apply IH in Hrest. destruct Hrest as (Hts1 & Hlen & Hzero & Hpos).
    split; [| split; [| split]].
    + rewrite Hts. cbn [app]. f_equal. rewrite <- Hts1, Hs1. reflexivity.
    + cbn [List.length]. now rewrite Hlen.
    + discriminate.
    + intros _. destruct n as [| n']; [| apply Hpos; discriminate].
      now rewrite (Hzero eq_refl).
Qed.

Lemma app_same_length (l1 l2 a b : list T) :
  List.length l1 = List.length l2 ->
  (l1 ++ a)%list = (l2 ++ b)%list -> l1 = l2 /\ a = b.
Proof.
  revert l2. induction l1 as [| x l1 IH]; intros [| y l2] Hlen Heq;
    try discriminate.
  - now split.
  - injection Hlen as Hlen. injection Heq as -> Heq.
    destruct (IH l2 Hlen Heq) as [-> ->]. now split.
Qed.

Lemma push_all_accepted vs : forall s,
  accepts_all refuses -> exists s1, push_all refuses vs s = (Ok tt, s1).
Proof.
  induction vs as [| v vs IH]; intros s Hacc; [now exists s |].
  cbn [push_all]. unfold bind.
  rewrite (push_timeout_accepted T refuses v s (Hacc _ _)). apply IH, Hacc.
Qed.

Lemma pop_n_accepted n : forall s,
  accepts_all refuses ->
  n < List.length (timeouts s) ->
  exists l s2, pop_n refuses n s = (Ok l, s2).
Proof.
  induction n as [| n IH]; intros s Hacc Hlen; [now exists [], s |].
  destruct (timeouts s) as [| x [| y rest]] eqn:Hts;
    [simpl in Hlen; lia | simpl in Hlen; lia |].
  cbn [pop_n]. unfold bind at 1.
  rewrite (pop_timeout_accepted T refuses x y rest s Hts (Hacc _ _)).
  destruct (IH {| timeouts := y :: rest;
                  driver_script_timeout := y;
                  driver_calls := driver_calls s ++ [y] |} Hacc)
    as (l & s2 & Hrun).
  - cbn [timeouts]. simpl in Hlen. simpl. lia.
  - exists (x :: l), s2. unfold bind. now rewrite Hrun.
Qed.

(** When pushing the values [vs] one after the other and popping as many
    times all return, the pops return the values last pushed first, the
    stack is the one from before the pushes, and so is the driver's
    timeout when the driver was in step with the stack.  With a driver
    that accepts every call, all the calls return. *)
Theorem push_all_pop_n_restores vs s :
  (forall l s',
     (push_all refuses vs ;;; pop_n refuses (List.length vs)) s = (Ok l, s') ->
     l = rev vs
     /\ timeouts s' = timeouts s
     /\ (front_is_active s ->
         driver_script_timeout s' = driver_script_timeout s))
  /\ (accepts_all refuses ->
      timeouts s <> [] ->
      exists s',
        (push_all refuses vs ;;; pop_n refuses (List.length vs)) s
        = (Ok (rev vs), s')).
Proof.
  assert (Hinv : forall l s',
            (push_all refuses vs ;;; pop_n refuses (List.length vs)) s
            = (Ok l, s') ->
            l = rev vs
            /\ timeouts s' = timeouts s
            /\ (front_is_active s ->
                driver_script_timeout s' = driver_script_timeout s)).
  { intros l s' Hrun. apply bind_ok_inv in Hrun.
    destruct Hrun as ([] & s1 & Hpush & Hpop).
    apply push_all_ok in Hpush. destruct Hpush as (Hts1 & Hnil & _).
    apply pop_n_ok in Hpop. destruct Hpop as (Hts' & Hlen & Hzero & Hpos).
    rewrite Hts1 in Hts'.
    apply app_same_length in Hts'; [| now rewrite length_rev, Hlen].
    destruct Hts' as [Hl Hsame]. split; [now symmetry |].
    split; [now symmetry |].
    intros (x & rest & Hts & Hd). destruct vs as [| v vs'].
    - rewrite (Hzero eq_refl). now rewrite (Hnil eq_refl).
    - destruct (Hpos ltac:(discriminate)) as (x' & rest' & Hts2 & Hd2).
      rewrite <- Hsame, Hts in Hts2. injection Hts2 as <- _. congruence. }
  split; [exact Hinv |].
  intros Hacc Hne.
  destruct (push_all_accepted vs s Hacc) as (s1 & Hpush).
  pose proof (push_all_ok vs s s1 Hpush) as (Hts1 & _ & _).
  destruct (pop_n_accepted (List.length vs) s1 Hacc) as (l & s' & Hpop).
  - rewrite Hts1, length_app, length_rev.
    destruct (timeouts s); [congruence | simpl; lia].
  - assert (Hrun : (push_all refuses vs ;;; pop_n refuses (List.length vs)) s
                   = (Ok l, s'))
      by (unfold bind; now rewrite Hpush).
    destruct (Hinv l s' Hrun) as [-> _]. now exists s'.
Qed.

(** Scopes nest on a driver that accepts every call: around a body that
    hands the stack back, [local_timeout] starts the body with [v] as the
    timeout, ends with the outcome of the body and hands the stack back as
    well, so it can itself be the body of another scope. *)
Theorem local_timeout_nests (A : Type) v (body : M (util T) A) :
  accepts_all refuses ->
  stack_neutral body ->
  stack_neutral (local_timeout refuses v body)
  /\ forall s,
       timeouts s <> [] ->
       exists s1,
         push_timeout refuses v s = (Ok tt, s1)
         /\ timeout s1 = (Ok v, s1)
         /\ fst (local_timeout refuses v body s) = fst (body s1).
Proof.
  intros Hacc Hbody.
  assert (Hrun : forall s,
            timeouts s <> [] ->
            exists s1 s3,
              push_timeout refuses v s = (Ok tt, s1)
              /\ local_timeout refuses v body s = (fst (body s1), s3)
              /\ timeouts s3 = timeouts s).
  { intros s Hne. destruct (timeouts s) as [| y rest] eqn:Hts; [congruence |].
    clear Hne.
    pose proof (push_timeout_accepted T refuses v s (Hacc _ _)) as Hpush.
    set (s1 := {| timeouts := v :: timeouts s;
                  driver_script_timeout := v;
                  driver_calls := driver_calls s ++ [v] |}) in *.
    assert (Hkeep : timeouts (snd (body s1)) = timeouts s1)
      by (apply Hbody; discriminate).
    assert (Hb : body s1 = (fst (body s1), snd (body s1)))
      by now destruct (body s1).
    set (r := fst (body s1)) in *. set (s2 := snd (body s1)) in *.
    destruct (local_timeout_returns T refuses A v body s s1 r s2 y
                Hpush Hb Hkeep ltac:(now rewrite Hts) (Hacc _ _))
      as (s3 & Hlt & Hts3 & _).
    exists s1, s3. split; [exact Hpush |]. split; [exact Hlt |].
    now rewrite Hts3. }
  split.
  - intros s Hne. destruct (Hrun s Hne) as (s1 & s3 & _ & Hlt & Hts3).
    now rewrite Hlt.
  - intros s Hne. destruct (Hrun s Hne) as (s1 & s3 & Hpush & Hlt & _).
    exists s1. split; [exact Hpush |]. split.
    + apply push_timeout_ok_inv in Hpush. destruct Hpush as [_ ->].
      reflexivity.
    + now rewrite Hlt.
Qed.

(** A body that leaves one value only on the stack makes the exit of the
    scope raise: the exception of [pop_timeout] replaces the outcome of the
    body, and the stack stays as the body left it. *)
Theorem local_timeout_exit_raises (A : Type) v (body : M (util T) A)
        s s1 r s2 :
  push_timeout refuses v s = (Ok tt, s1) ->
  body s1 = (r, s2) ->
  List.length (timeouts s2) = 1 ->
  local_timeout refuses v body s =
  (Raise (Exception "can't pop when there is only one element on the stack"),
   s2).
Proof.
  intros Hpush Hbody Hlen.
  unfold local_timeout, bind, try_finally. rewrite Hpush, Hbody.
  unfold pop_timeout. rewrite Hlen. reflexivity.
Qed.

(** The exit of the scope pops whatever the body left at the front, not
    the value the scope pushed.  When the body ends with [x] in front of
    [y], the exit asks the driver for [y]: if the driver accepts, the scope
    ends with the outcome of the body, [y] at the front and as the driver's
    timeout, so a body that pushes and does not pop leaves the stack one
    deeper than the scope found it; if the driver raises, its exception
    replaces the outcome of the body and nothing is popped. *)
Theorem local_timeout_exit_pops_front (A : Type) v (body : M (util T) A)
        s s1 r s2 x y rest :
  push_timeout refuses v s = (Ok tt, s1) ->
  body s1 = (r, s2) ->
  timeouts s2 = x :: y :: rest ->
  (refuses (driver_calls s2) y = None ->
   local_timeout refuses v body s =
   (r, {| timeouts := y :: rest;
          driver_script_timeout := y;
          driver_calls := driver_calls s2 ++ [y] |}))
  /\ (forall e,
        refuses (driver_calls s2) y = Some e ->
        local_timeout refuses v body s =
        (Raise e, {| timeouts := x :: y :: rest;
                     driver_script_timeout := driver_script_timeout s2;
                     driver_calls := driver_calls s2 ++ [y] |})).
Proof.
  intros Hpush Hbody Hts. split.
  - intros Hacc. unfold local_timeout, bind, try_finally.
    rewrite Hpush, Hbody.
    now rewrite (pop_timeout_accepted T refuses x y rest s2 Hts Hacc).
  - intros e Href. unfold local_timeout, bind, try_finally.
    rewrite Hpush, Hbody.
    rewrite (pop_timeout_refused T refuses x y rest s2 e Hts Href).
    now rewrite Hts.
Qed.

End StackRunsFacts.

Lemma timeout_active_after_return_witness :
  let s := snd (TimeoutStack.push_timeout TimeoutStack.refuses_negative
                  (-1)%Z (TimeoutStack.init 2%Z)) in
  TimeoutStack.reachable TimeoutStack.refuses_negative s
  /\ TimeoutStack.timeouts s <> []
  /\ exists x, TimeoutStack.timeout s = (Ok x, s).
Proof.
  cbv zeta.
  assert (Hr : TimeoutStack.reachable TimeoutStack.refuses_negative
                 (snd (TimeoutStack.push_timeout TimeoutStack.refuses_negative
                         (-1)%Z (TimeoutStack.init 2%Z))))
    by (apply TimeoutStack.reach_push, TimeoutStack.reach_init).
  split; [exact Hr |].
  destruct (timeout_active_after_return Z TimeoutStack.refuses_negative _ Hr)
    as (Hne & Hx & _).
  split; [exact Hne | exact Hx].
Defined.

Lemma default_timeout_stays_last_witness :
  let s := snd (TimeoutStack.pop_timeout TimeoutStack.refuses_negative
                  (snd (TimeoutStack.push_timeout
                          TimeoutStack.refuses_negative (-1)%Z
                          (TimeoutStack.init 2%Z)))) in
  StackRuns.reaches TimeoutStack.refuses_negative 2%Z s
  /\ exists above, TimeoutStack.timeouts s = (above ++ [2%Z])%list.
Proof.
  cbv zeta.
  assert (Hr : StackRuns.reaches TimeoutStack.refuses_negative 2%Z
                 (snd (TimeoutStack.pop_timeout TimeoutStack.refuses_negative
                         (snd (TimeoutStack.push_timeout
                                 TimeoutStack.refuses_negative (-1)%Z
                                 (TimeoutStack.init 2%Z))))))
    by (apply StackRuns.reaches_pop, StackRuns.reaches_push,
          StackRuns.reaches_init).
  split; [exact Hr |].
  exact (default_timeout_stays_last Z TimeoutStack.refuses_negative 2%Z _ Hr).
Defined.

Lemma push_all_pop_n_restores_witness :
  StackRuns.accepts_all TimeoutStack.always_accepts
  /\ TimeoutStack.timeouts (TimeoutStack.init 2%Z) <> []
  /\ exists s',
       (StackRuns.push_all TimeoutStack.always_accepts [5%Z; 7%Z; 9%Z] ;;;
        StackRuns.pop_n TimeoutStack.always_accepts 3)
         (TimeoutStack.init 2%Z)
       = (Ok [9%Z; 7%Z; 5%Z], s').
Proof.
  assert (Hacc : StackRuns.accepts_all TimeoutStack.always_accepts)
    by (intros asked v; reflexivity).
  assert (Hne : TimeoutStack.timeouts (TimeoutStack.init 2%Z) <> [])
    by discriminate.
  split; [exact Hacc |]. split; [exact Hne |].
  exact (proj2 (push_all_pop_n_restores Z TimeoutStack.always_accepts
                  [5%Z; 7%Z; 9%Z] (TimeoutStack.init 2%Z)) Hacc Hne).
Defined.

Lemma local_timeout_nests_witness :
  StackRuns.accepts_all TimeoutStack.always_accepts
  /\ StackRuns.stack_neutral (TimeoutStack.timeout (T := Z))
  /\ StackRuns.stack_neutral
       (TimeoutStack.local_timeout TimeoutStack.always_accepts 5%Z
          (TimeoutStack.local_timeout TimeoutStack.always_accepts 7%Z
             TimeoutStack.timeout)).
Proof.
  assert (Hacc : StackRuns.accepts_all TimeoutStack.always_accepts)
    by (intros asked v; reflexivity).
  assert (Hn : StackRuns.stack_neutral (TimeoutStack.timeout (T := Z))).
  { intros s _. unfold TimeoutStack.timeout, TimeoutStack.timeouts_at.
    destruct (nth_error (TimeoutStack.timeouts s) 0); reflexivity. }
  split; [exact Hacc |]. split; [exact Hn |].
  pose proof (proj1 (local_timeout_nests Z TimeoutStack.always_accepts Z 7%Z
                       TimeoutStack.timeout Hacc Hn)) as Hinner.
  exact (proj1 (local_timeout_nests Z TimeoutStack.always_accepts Z 5%Z
                  (TimeoutStack.local_timeout TimeoutStack.always_accepts 7%Z
                     TimeoutStack.timeout) Hacc Hinner)).
Defined.

Lemma local_timeout_exit_raises_witness :
  let s1 := {| TimeoutStack.timeouts := [5%Z; 2%Z];
               TimeoutStack.driver_script_timeout := 5%Z;
               TimeoutStack.driver_calls := [2%Z; 5%Z] |} in
  let s2 := {| TimeoutStack.timeouts := [2%Z];
               TimeoutStack.driver_script_timeout := 2%Z;
               TimeoutStack.driver_calls := [2%Z; 5%Z; 2%Z] |} in
  TimeoutStack.push_timeout TimeoutStack.refuses_negative 5%Z
    (TimeoutStack.init 2%Z) = (Ok tt, s1)
  /\ TimeoutStack.pop_timeout TimeoutStack.refuses_negative s1 = (Ok 5%Z, s2)
  /\ List.length (TimeoutStack.timeouts s2) = 1
  /\ TimeoutStack.local_timeout TimeoutStack.refuses_negative 5%Z
       (TimeoutStack.pop_timeout TimeoutStack.refuses_negative)
       (TimeoutStack.init 2%Z)
     = (Raise (Exception
                 "can't pop when there is only one element on the stack"),
        s2).
Proof.
  cbv zeta.
  split; [reflexivity |]. split; [reflexivity |]. split; [reflexivity |].
  exact (local_timeout_exit_raises Z TimeoutStack.refuses_negative Z 5%Z
           (TimeoutStack.pop_timeout TimeoutStack.refuses_negative)
           (TimeoutStack.init 2%Z) _ (Ok 5%Z) _ eq_refl eq_refl eq_refl).
Defined.

Lemma local_timeout_exit_pops_front_witness :
  let s1 := {| TimeoutStack.timeouts := [5%Z; 2%Z];
               TimeoutStack.driver_script_timeout := 5%Z;
               TimeoutStack.driver_calls := [2%Z; 5%Z] |} in
  let s2 := {| TimeoutStack.timeouts := [9%Z; 5%Z; 2%Z];
               TimeoutStack.driver_script_timeout := 9%Z;
               TimeoutStack.driver_calls := [2%Z; 5%Z; 9%Z] |} in
  TimeoutStack.push_timeout TimeoutStack.refuses_negative 5%Z
    (TimeoutStack.init 2%Z) = (Ok tt, s1)
  /\ TimeoutStack.push_timeout TimeoutStack.refuses_negative 9%Z s1
     = (Ok tt, s2)
  /\ TimeoutStack.refuses_negative (TimeoutStack.driver_calls s2) 5%Z = None
  /\ TimeoutStack.local_timeout TimeoutStack.refuses_negative 5%Z
       (TimeoutStack.push_timeout TimeoutStack.refuses_negative 9%Z)
       (TimeoutStack.init 2%Z)
     = (Ok tt, {| TimeoutStack.timeouts := [5%Z; 2%Z];
                  TimeoutStack.driver_script_timeout := 5%Z;
                  TimeoutStack.driver_calls := [2%Z; 5%Z; 9%Z; 5%Z] |}).
Proof.
  cbv zeta.
  split; [reflexivity |]. split; [reflexivity |]. split; [reflexivity |].
  exact (proj1 (local_timeout_exit_pops_front Z TimeoutStack.refuses_negative
                  unit 5%Z
                  (TimeoutStack.push_timeout TimeoutStack.refuses_negative 9%Z)
                  (TimeoutStack.init 2%Z) _ (Ok tt) _ 9%Z 5%Z [2%Z]
                  eq_refl eq_refl eq_refl) eq_refl).
Defined.

(** ** More on [locations_within] *)

Section LocationsMore.

Import Locations.

Variable value : Type.
Variable py_int : value -> result Z.

Implicit Types (a b items : dict value) (key k : string) (ret : string).

(** A loop that ends normally has met no key twice. *)
Lemma compare_items_ok_nodup items : forall b tolerance ret r b',
  compare_items py_int items b tolerance ret = Ok (r, b') ->
  NoDup (keys items).
Proof.
  induction items as [| [key v] items IH]; intros b tolerance ret r b' Hrun.
  - constructor.
  - simpl in Hrun. destruct (has_key b key); [| discriminate].
    simpl in Hrun.
    destruct (py_int v) as [va |]; [| discriminate].
    destruct (getitem b key) as [bv |]; [| discriminate].
    simpl in Hrun.
    destruct (py_int bv) as [vb |]; [| discriminate].
    simpl in Hrun. simpl. constructor.
    + intros Hin.
      apply (compare_items_ok value py_int) in Hrun. destruct Hrun as [Hsub _].
      apply Hsub, keys_delitem in Hin. now destruct Hin.
    + eapply IH. exact Hrun.
Qed.

(** A loop that ends normally has converted the value of every item and
    the value [b] holds under its key, and has appended the descriptions
    of the items out of tolerance. *)
Lemma compare_items_ok_values items : forall b tolerance ret r b',
  compare_items py_int items b tolerance ret = Ok (r, b') ->
  (forall kv, In kv items ->
     exists za bv zb,
       py_int (snd kv) = Ok za /\ getitem b (fst kv) = Ok bv
       /\ py_int bv = Ok zb)
  /\ r = ret ++ differences py_int items b tolerance.
Proof.
  induction items as [| [key v] items IH]; intros b tolerance ret r b' Hrun.
  - simpl in Hrun. injection Hrun as <- _. split; [intros kv [] |].
    unfold differences. simpl. now rewrite append_nil_r.
  - pose proof (compare_items_ok_nodup _ _ _ _ _ _ Hrun) as Hnd.
    inversion Hnd as [| ? ? Hnotin _]; subst.
    simpl in Hrun. destruct (has_key b key) eqn:Hk; [| discriminate].
    simpl in Hrun.
    destruct (py_int v) as [va |] eqn:Hva; [| discriminate].
    destruct (getitem b key) as [bv |] eqn:Hget; [| discriminate].
    simpl in Hrun.
    destruct (py_int bv) as [vb |] eqn:Hvb; [| discriminate].
    simpl in Hrun. apply IH in Hrun. destruct Hrun as [Hvals ->].
    split.
    + intros kv [<- | Hin].
      * exists va, bv, vb. simpl. auto.
      * destruct (Hvals kv Hin) as (za & bv' & zb & Hza & Hg & Hzb).
        exists za, bv', zb. split; [assumption |]. split; [| assumption].
        rewrite <- Hg. symmetry. apply getitem_delitem.
        intros ->. apply Hnotin. unfold keys. now apply in_map.
    + rewrite differences_delitem by assumption.
      assert (He : exceeds py_int b tolerance (key, v) =
                   (Z.abs (va - vb) >? tolerance)%Z).
      { unfold exceeds, int_at, int_of. simpl. now rewrite Hva, Hget, Hvb. }
      assert (Hd : describe py_int b (key, v) = format_diff key va vb).
      { unfold describe, int_at, int_of. simpl. now rewrite Hva, Hget, Hvb. }
      unfold differences. cbn [filter]. rewrite He.
      destruct (Z.abs (va - vb) >? tolerance)%Z; [| reflexivity].
      cbn [map join_all fold_right]. now rewrite Hd, append_assoc.
Qed.

(** The tolerance decides what the loop appends, not whether it raises,
    what it raises, or what it leaves of [b]. *)
Lemma compare_items_any_tolerance items : forall b t t' ret ret',
  match compare_items py_int items b t ret,
        compare_items py_int items b t' ret' with
  | Ok (_, b1), Ok (_, b2) => b1 = b2
  | Raise e1, Raise e2 => e1 = e2
  | _, _ => False
  end.
Proof.
  induction items as [| [key v] items IH]; intros b t t' ret ret'.
  - reflexivity.
  - simpl. destruct (has_key b key); simpl; [| reflexivity].
    destruct (py_int v) as [va |]; simpl; [| reflexivity].
    destruct (getitem b key) as [bv |]; simpl; [| reflexivity].
    destruct (py_int bv) as [vb |]; simpl; [| reflexivity].
    apply IH.
Qed.

Lemma getitem_nodup a k v :
  NoDup (keys a) -> In (k, v) a -> getitem a k = Ok v.
Proof.
  unfold getitem. induction a as [| [k' v'] a IH]; intros Hnd Hin.
  - destruct Hin.
  - inversion Hnd as [| ? ? Hnotin Hnd']; subst. simpl.
    destruct Hin as [Heq | Hin].
    + injection Heq as -> ->. now rewrite String.eqb_refl.
    + destruct (String.eqb_spec k k') as [-> | _]; [| now apply IH].
      elim Hnotin. unfold keys. change k' with (fst (k', v)). now apply in_map.
  Qed.

Lemma join_all_empty (l : list string) :
  (forall x, In x l -> x <> "") -> join_all l = "" -> l = [].
Proof.
  intros Hne Hj. destruct l as [| x l]; [reflexivity |].
  simpl in Hj. destruct x; [| discriminate].
  elim (Hne "" (or_introl eq_refl)). reflexivity.
Qed.

Lemma differences_empty a b tolerance :
  differences py_int a b tolerance = "" <->
  forall kv, In kv a -> exceeds py_int b tolerance kv = false.
Proof.
  unfold differences. split.
  - intros Hj kv Hin. apply join_all_empty in Hj.
    + destruct (exceeds py_int b tolerance kv) eqn:He; [| reflexivity].
      assert (Hf : In kv (filter (exceeds py_int b tolerance) a))
        by (apply filter_In; now split).
      apply (in_map (describe py_int b)) in Hf. rewrite Hj in Hf. destruct Hf.
    + intros x Hx. apply in_map_iff in Hx. destruct Hx as (kv' & <- & _).
      apply describe_not_empty.
  - intros Hall.
    replace (filter (exceeds py_int b tolerance) a) with (@nil (string * value));
      [reflexivity |].
    symmetry. induction a as [| kv a' IH]; [reflexivity |].
    simpl. rewrite (Hall kv (or_introl eq_refl)).
    apply IH. intros x Hx. apply Hall. now right.
Qed.

Lemma locations_within_ok_inv a b tolerance ret :
  locations_within py_int a b tolerance = Ok ret ->
  coercible py_int a
  /\ (forall k, In k (keys b) ->
        exists v z, getitem b k = Ok v /\ py_int v = Ok z)
  /\ ret = differences py_int a b tolerance.
Proof.
  intros Hrun.
  unfold locations_within in Hrun.
  destruct (compare_items py_int a b tolerance "") as [[r b'] |] eqn:Hloop;
    [| discriminate].
  pose proof (compare_items_ok _ _ _ _ _ _ _ _ Hloop) as [Hsub Hb'].
  pose proof (compare_items_ok_values _ _ _ _ _ _ Hloop) as [Hvals Hr].
  simpl in Hrun. subst b'. destruct (leftover a b) eqn:Hl; [| discriminate].
  injection Hrun as <-. split; [| split].
  - intros kv Hin. destruct (Hvals kv Hin) as (za & _ & _ & Hza & _).
    now exists za.
  - intros k Hin.
    assert (Hka : In k (keys a)).
    { destruct (has_key a k) eqn:Hk; [now apply has_key_In |].
      apply has_key_false in Hk.
      assert (Hk' : In k (keys (leftover a b)))
        by (apply keys_leftover; now split).
      rewrite Hl in Hk'. destruct Hk'. }
    unfold keys in Hka. apply in_map_iff in Hka.
    destruct Hka as (kv & <- & Hkv).
    destruct (Hvals kv Hkv) as (_ & bv & zb & _ & Hg & Hzb).
    now exists bv, zb.
  - exact Hr.
Qed.

(** A normal return tells that [int] accepted every value of [a] and every
    value it read from [b], and the string returned is the descriptions of
    the items of [a] out of tolerance, in the order of [a]. *)
Theorem locations_within_ok_converted a b tolerance ret :
  locations_within py_int a b tolerance = Ok ret ->
  coercible py_int a
  /\ (forall k, In k (keys b) ->
        exists v z, getitem b k = Ok v /\ py_int v = Ok z)
  /\ ret = differences py_int a b tolerance.
Proof. apply locations_within_ok_inv. Qed.

Lemma locations_within_raise_inv a b t t' e :
  locations_within py_int a b t = Raise e ->
  locations_within py_int a b t' = Raise e.
Proof.
  unfold locations_within. intros Hrun.
  pose proof (compare_items_any_tolerance a b t t' "" "") as Hrel.
  destruct (compare_items py_int a b t "") as [[r1 b1] | e1];
    destruct (compare_items py_int a b t' "") as [[r2 b2] | e2];
    try contradiction; simpl in *.
  - subst b2. destruct b1; [discriminate | exact Hrun].
  - now subst e2.
Qed.


(** What is within a tolerance is within every larger one. *)
Theorem locations_within_monotone a b t t' :
  (t <= t')%Z ->
  locations_within py_int a b t = Ok "" ->
  locations_within py_int a b t' = Ok "".
Proof.
  intros Hle Hrun.
  destruct (locations_within py_int a b t') as [r' | e'] eqn:Hrun'.
  - apply locations_within_ok_inv in Hrun, Hrun'.
    destruct Hrun as (_ & _ & Hr), Hrun' as (_ & _ & ->).
    f_equal. apply differences_empty. intros kv Hin.
    symmetry in Hr. rewrite differences_empty in Hr. specialize (Hr kv Hin).
    unfold exceeds in *. rewrite Z.gtb_ltb in Hr. apply Z.ltb_ge in Hr.
    destruct (Z.gtb_spec
                (Z.abs (int_of py_int (snd kv) - int_at py_int b (fst kv))) t');
      [lia | reflexivity].
  - apply (locations_within_raise_inv a b t' t) in Hrun'.
    congruence.
Qed.

(** A location is within every tolerance that is not negative of itself. *)
Theorem locations_within_reflexive a tolerance :
  NoDup (keys a) ->
  coercible py_int a ->
  (0 <= tolerance)%Z ->
  locations_within py_int a a tolerance = Ok "".
Proof.
  intros Hnd Ha Htol.
  rewrite locations_within_run by auto.
  rewrite leftover_empty by auto. f_equal.
  apply differences_empty. intros [k v] Hin. unfold exceeds, int_at. simpl.
  rewrite (getitem_nodup a k v Hnd Hin).
  rewrite Z.sub_diag. simpl.
  destruct (Z.gtb_spec 0 tolerance); [lia | reflexivity].
Qed.


(** The verdict is symmetric: when [a] is within tolerance of [b], so is
    [b] of [a]. *)
Theorem locations_within_symmetric a b tolerance :
  NoDup (keys b) ->
  locations_within py_int a b tolerance = Ok "" ->
  locations_within py_int b a tolerance = Ok "".
Proof.
  intros Hndb Hrun.
  pose proof Hrun as Hconv. apply locations_within_ok_inv in Hconv.
  destruct Hconv as (Ha & Hbvals & Hdiff).
  assert (Hnda : NoDup (keys a)).
  { unfold locations_within in Hrun.
    destruct (compare_items py_int a b tolerance "") as [[r b'] |] eqn:Hloop;
      [| discriminate].
    eapply compare_items_ok_nodup. exact Hloop. }
  assert (Hsame : forall k, In k (keys a) <-> In k (keys b)).
  { unfold locations_within in Hrun.
    destruct (compare_items py_int a b tolerance "") as [[r b'] |] eqn:Hloop;
      [| discriminate].
    pose proof (compare_items_ok _ _ _ _ _ _ _ _ Hloop) as [Hsub ->].
    simpl in Hrun. destruct (leftover a b) eqn:Hl; [| discriminate].
    intros k. split; [apply Hsub |]. intros Hin.
    destruct (has_key a k) eqn:Hk; [now apply has_key_In |].
    apply has_key_false in Hk.
    assert (Hk' : In k (keys (leftover a b)))
      by (apply keys_leftover; now split).
    rewrite Hl in Hk'. destruct Hk'. }
  assert (Hb : coercible py_int b).
  { intros [k v] Hin. simpl.
    assert (Hk : In k (keys b))
      by (unfold keys; change k with (fst (k, v)); now apply in_map).
    destruct (Hbvals k Hk) as (v' & z & Hg & Hz).
    rewrite (getitem_nodup b k v Hndb Hin) in Hg. injection Hg as <-.
    now exists z. }
  rewrite locations_within_run; try assumption; [| intros k; apply Hsame].
  rewrite leftover_empty by (intros k; apply Hsame). f_equal.
  apply differences_empty. intros [k v] Hin.
  assert (Hk : In k (keys a)).
  { apply Hsame. unfold keys. change k with (fst (k, v)). now apply in_map. }
  unfold keys in Hk. apply in_map_iff in Hk.
  destruct Hk as ([k' va] & Hfst & Hina). simpl in Hfst. subst k'.
  symmetry in Hdiff. rewrite differences_empty in Hdiff.
  specialize (Hdiff (k, va) Hina). unfold exceeds, int_at in *. simpl in *.
  rewrite (getitem_nodup b k v Hndb Hin) in Hdiff.
  rewrite (getitem_nodup a k va Hnda Hina).
  rewrite <- Hdiff. f_equal.
  rewrite <- Z.abs_opp. f_equal. lia.
Qed.

End LocationsMore.

Lemma locations_within_ok_converted_witness :
  Locations.locations_within Locations.int_of_int
    [("x", 10%Z); ("y", 1%Z)] [("y", 1%Z); ("x", 15%Z)] 2
  = Ok "key x differs: 10 15"
  /\ Locations.coercible Locations.int_of_int [("x", 10%Z); ("y", 1%Z)].
Proof.
  split; [reflexivity |].
  exact (proj1 (locations_within_ok_converted Z Locations.int_of_int
                  [("x", 10%Z); ("y", 1%Z)] [("y", 1%Z); ("x", 15%Z)] 2%Z
                  "key x differs: 10 15" eq_refl)).
Defined.


Lemma locations_within_monotone_witness :
  (2 <= 7)%Z
  /\ Locations.locations_within Locations.int_of_int
       [("x", 10%Z); ("y", 20%Z)] [("y", 21%Z); ("x", 8%Z)] 2 = Ok ""
  /\ Locations.locations_within Locations.int_of_int
       [("x", 10%Z); ("y", 20%Z)] [("y", 21%Z); ("x", 8%Z)] 7 = Ok "".
Proof.
  split; [lia |]. split; [reflexivity |].
  apply (locations_within_monotone Z Locations.int_of_int
           [("x", 10%Z); ("y", 20%Z)] [("y", 21%Z); ("x", 8%Z)] 2%Z 7%Z);
    [lia | reflexivity].
Defined.

Lemma locations_within_reflexive_witness :
  NoDup (Locations.keys [("x", 10%Z); ("y", (-20)%Z)])
  /\ Locations.coercible Locations.int_of_int [("x", 10%Z); ("y", (-20)%Z)]
  /\ (0 <= 0)%Z
  /\ Locations.locations_within Locations.int_of_int
       [("x", 10%Z); ("y", (-20)%Z)] [("x", 10%Z); ("y", (-20)%Z)] 0 = Ok "".
Proof.
  assert (Hnd : NoDup (Locations.keys [("x", 10%Z); ("y", (-20)%Z)])).
  { simpl. repeat constructor; simpl; intuition discriminate. }
  split; [exact Hnd |]. split; [apply int_of_int_coercible |].
  split; [lia |].
  apply (locations_within_reflexive Z Locations.int_of_int
           [("x", 10%Z); ("y", (-20)%Z)] 0%Z Hnd (int_of_int_coercible _)).
  lia.
Defined.


Lemma locations_within_symmetric_witness :
  NoDup (Locations.keys [("y", 21%Z); ("x", 8%Z)])
  /\ Locations.locations_within Locations.int_of_int
       [("x", 10%Z); ("y", 20%Z)] [("y", 21%Z); ("x", 8%Z)] 2 = Ok ""
  /\ Locations.locations_within Locations.int_of_int
       [("y", 21%Z); ("x", 8%Z)] [("x", 10%Z); ("y", 20%Z)] 2 = Ok "".
Proof.
  assert (Hnd : NoDup (Locations.keys [("y", 21%Z); ("x", 8%Z)])).
  { simpl. repeat constructor; simpl; intuition discriminate. }
  split; [exact Hnd |]. split; [reflexivity |].
  apply (locations_within_symmetric Z Locations.int_of_int
           [("x", 10%Z); ("y", 20%Z)] [("y", 21%Z); ("x", 8%Z)] 2%Z Hnd).
  reflexivity.
Defined.

(** ** More on [visible_to_user] *)

Section VisibilityMore.

Import Visibility Screen.

Variable p : page.

Implicit Types (s : browser) (el element : elem) (ignorable : list selector).

(** The [finally] block does not throw. *)
Lemma restore_displays_ok ignorable : forall old ix s,
  fst (restore_displays p old ignorable ix s) = Ok tt.
Proof.
  induction ignorable as [| x rest IH]; intros old ix s; [reflexivity |].
  cbn [restore_displays]. unfold bind.
  destruct (nth ix old None) as [v |]; cbn [css_set].
  - unfold set_display. apply IH.
  - unfold ret at 1. apply IH.
Qed.

Lemma visible_script_unfold el ignorable :
  visible_script p el ignorable =
  (old_displays <- save_displays p ignorable ;;
   set_display (jquery_array p ignorable) "none" ;;;
   try_finally (corner_tests p el)
     (restore_displays p old_displays ignorable 0)).
Proof. reflexivity. Qed.

(** The script answers what its corner tests answer. *)
Lemma visible_script_outcome el ignorable s :
  fst (visible_script p el ignorable s) =
  fst (corner_tests p el (hidden_state p ignorable s)).
Proof.
  rewrite visible_script_unfold. unfold bind at 1. rewrite save_displays_run.
  unfold bind at 1. unfold set_display at 1. unfold try_finally.
  change {| display := _; calls := calls s |}
    with (hidden_state p ignorable s).
  destruct (corner_tests p el (hidden_state p ignorable s)) as [r s2].
  pose proof (restore_displays_ok ignorable
                (map (saved p s) ignorable) 0 s2) as Hok.
  destruct (restore_displays p (map (saved p s) ignorable) ignorable 0 s2)
    as [[u | ex] s3]; cbn [fst] in *; [reflexivity | discriminate].
Qed.

(** [visible_to_user] once the cheap checks have let the element
    through. *)
Lemma visible_to_user_runs_script element ignorable s sz :
  is_displayed p element = Ok true ->
  size p element = Ok sz ->
  outside_viewport (screen_offset p element) sz (window_dims p) = false ->
  visible_to_user p element ignorable s =
  execute_script (ScriptVisibleToUser element ignorable)
    (visible_script p element ignorable) (queried element s).
Proof.
  intros Hd Hsz Hout.
  unfold visible_to_user, element_screen_position, get_window_inner_size.
  unfold execute_script at 2 3. unfold bind, log, lift, ret. simpl.
  rewrite Hd. simpl. rewrite Hsz.
  unfold screen_offset, window_dims in Hout. rewrite Hout.
  unfold queried. rewrite <- !app_assoc. reflexivity.
Qed.

(** The two early answers of [visible_to_user]. *)
Lemma visible_to_user_cheap_paths_helper element ignorable s :
  (is_displayed p element = Ok false ->
   visible_to_user p element ignorable s =
   (Ok false,
    {| display := display s;
       calls := calls s ++ [CallIsDisplayed element] |}))
  /\ (forall sz,
        is_displayed p element = Ok true ->
        size p element = Ok sz ->
        entirely_outside (screen_offset p element) sz (window_dims p) ->
        visible_to_user p element ignorable s = (Ok false, queried element s)).
Proof.
  split.
  - intros Hd. unfold visible_to_user, bind, log, lift. simpl.
    rewrite Hd. reflexivity.
  - intros sz Hd Hsz Hout. apply outside_viewport_spec in Hout.
    unfold visible_to_user, element_screen_position, get_window_inner_size,
      execute_script, bind, log, lift, ret. simpl.
    rewrite Hd. simpl. rewrite Hsz.
    unfold screen_offset, window_dims in Hout. rewrite Hout.
    unfold queried. rewrite <- !app_assoc. reflexivity.
Qed.

Lemma corner_tests_true el s :
  fst (corner_tests p el s) = Ok true ->
  exists xy,
    In xy (corners (bounding_client_rect p (display s) el))
    /\ element_from_point p (display s) (fst xy) (snd xy) = Some el.
Proof.
  unfold corner_tests, corners.
  set (r := bounding_client_rect p (display s) el).
  destruct (contains_type_checks p) eqn:Hc.
  - pose proof (corner_tests_type_checked p el s Hc) as Hrun.
    cbv zeta in Hrun. fold r in Hrun. rewrite Hrun. cbn [fst].
    destruct (element_from_point p (display s) (rect_left r) (rect_top r))
      as [n |] eqn:Hefp; [| discriminate].
    destruct (Nat.eqb_spec n el) as [-> | _]; [| discriminate].
    intros _. exists (rect_left r, rect_top r). split; [now left | exact Hefp].
  - pose proof (corner_tests_lenient p el s Hc) as Hrun.
    cbv zeta in Hrun. fold r in Hrun. rewrite Hrun. cbn [fst].
    intros Hor. injection Hor as Hor.
    assert (Hpt : forall x y,
              match element_from_point p (display s) x y with
              | Some n => Nat.eqb n el
              | None => false
              end = true ->
              element_from_point p (display s) x y = Some el).
    { intros x y Hm. destruct (element_from_point p (display s) x y) as [n |];
        [| discriminate]. apply Nat.eqb_eq in Hm. now subst. }
    rewrite !orb_true_iff in Hor.
    destruct Hor as [[[H | H] | H] | H]; apply Hpt in H.
    + exists (rect_left r, rect_top r). split; [now left | exact H].
    + exists (rect_left r, rect_bottom r).
      split; [right; now left | exact H].
    + exists (rect_right r, rect_top r).
      split; [right; right; now left | exact H].
    + exists (rect_right r, rect_bottom r).
      split; [right; right; right; now left | exact H].
Qed.

(** [visible_to_user] answers [True] only for an element that reports
    itself displayed, whose box is not entirely outside the viewport, and
    one corner of which, with the ignorable elements hidden, hit-tests to
    the element itself. *)
Theorem visible_to_user_true_sound element ignorable s s' :
  visible_to_user p element ignorable s = (Ok true, s') ->
  is_displayed p element = Ok true
  /\ (exists sz, size p element = Ok sz
        /\ ~ entirely_outside (screen_offset p element) sz (window_dims p))
  /\ exists xy,
       In xy (corners (bounding_client_rect p
                         (hidden_displays p ignorable s) element))
       /\ element_from_point p (hidden_displays p ignorable s)
            (fst xy) (snd xy) = Some element.
Proof.
  intros Hrun.
  destruct (is_displayed p element) as [[|] | e] eqn:Hd.
  - destruct (size p element) as [sz | e] eqn:Hsz.
    + destruct (outside_viewport (screen_offset p element) sz (window_dims p))
        eqn:Hout.
      * exfalso. apply outside_viewport_spec in Hout.
        revert Hrun.
        unfold visible_to_user, element_screen_position,
          get_window_inner_size, execute_script, bind, log, lift, ret. simpl.
        rewrite Hd. simpl. rewrite Hsz.
        apply outside_viewport_spec in Hout.
        unfold screen_offset, window_dims in Hout. rewrite Hout.
        discriminate.
      * split; [reflexivity |]. split.
        { exists sz. split; [reflexivity |]. intros Ho.
          apply outside_viewport_spec in Ho. congruence. }
        rewrite (visible_to_user_runs_script _ _ _ sz Hd Hsz Hout) in Hrun.
        unfold execute_script, bind, log in Hrun.
        pose proof (visible_script_outcome element ignorable
                      {| display := display (queried element s);
                         calls := calls (queried element s)
                                  ++ [ScriptVisibleToUser element ignorable] |})
          as Hout'.
        destruct (visible_script p element ignorable _) as [[b |] s2];
          [| discriminate].
        injection Hrun as -> _. cbn [fst] in Hout'. symmetry in Hout'.
        apply corner_tests_true in Hout'. exact Hout'.
    + exfalso. revert Hrun.
      unfold visible_to_user, element_screen_position,
        get_window_inner_size, execute_script, bind, log, lift, ret. simpl.
      rewrite Hd. simpl. rewrite Hsz. discriminate.
  - exfalso. revert Hrun.
    unfold visible_to_user, bind, log, lift, ret. simpl. rewrite Hd.
    discriminate.
  - exfalso. revert Hrun.
    unfold visible_to_user, bind, log, lift, ret. simpl. rewrite Hd.
    discriminate.
Qed.

(** In a browser whose [contains] checks its argument, an element that
    passes the cheap checks is never answered [False]: the answer is [True]
    when its top-left corner hit-tests to the element itself, and the call
    raises in every other case. *)
Theorem visible_to_user_true_or_raises element ignorable s sz :
  contains_type_checks p = true ->
  is_displayed p element = Ok true ->
  size p element = Ok sz ->
  ~ entirely_outside (screen_offset p element) sz (window_dims p) ->
  let d := hidden_displays p ignorable s in
  let r := bounding_client_rect p d element in
  fst (visible_to_user p element ignorable s) =
  match element_from_point p d (rect_left r) (rect_top r) with
  | Some n => if Nat.eqb n element then Ok true
              else Raise (WebDriverException "javascript error")
  | None => Raise (WebDriverException "javascript error")
  end.
Proof.
  intros Hc Hd Hsz Hin d r.
  assert (Hout : outside_viewport (screen_offset p element) sz (window_dims p)
                 = false).
  { destruct (outside_viewport _ _ _) eqn:Ho; [| reflexivity].
    apply outside_viewport_spec in Ho. contradiction. }
  rewrite (visible_to_user_runs_script _ _ _ sz Hd Hsz Hout).
  unfold execute_script, bind, log.
  pose proof (visible_script_outcome element ignorable
                {| display := display (queried element s);
                   calls := calls (queried element s)
                            ++ [ScriptVisibleToUser element ignorable] |})
    as Hscript.
  unfold corner_tests in Hscript.
  rewrite (corner_tests_type_checked p element _ Hc) in Hscript.
  cbn [fst] in Hscript.
  destruct (visible_script p element ignorable _) as [res s2].
  cbn [fst] in *. subst res.
  change (display (hidden_state p ignorable _)) with d. fold r.
  destruct (element_from_point p d (rect_left r) (rect_top r)) as [n |];
    [destruct (Nat.eqb n element) |]; reflexivity.
Qed.

(** When every ignorable selector matches elements that share one
    [display] value, and the hiding step reaches matched elements only,
    [visible_to_user] leaves every [display] as it found it on all its
    paths: the early answers, a query that raises, and a script that
    returns or throws. *)
Theorem visible_to_user_restores_uniform element ignorable s :
  (forall x, In x ignorable -> uniform p s x) ->
  (forall e, In e (jquery_array p ignorable) ->
             existsb (matched_by p e) ignorable = true) ->
  forall e,
    display (snd (visible_to_user p element ignorable s)) e = display s e.
Proof.
  intros Huni Hhidden e.
  destruct (is_displayed p element) as [[|] | ex] eqn:Hd.
  - destruct (size p element) as [sz | ex] eqn:Hsz.
    + destruct (outside_viewport (screen_offset p element) sz (window_dims p))
        eqn:Hout.
      * apply outside_viewport_spec in Hout.
        now rewrite (proj2 (visible_to_user_cheap_paths_helper
                              element ignorable s) sz Hd Hsz Hout).
      * rewrite (visible_to_user_runs_script _ _ _ sz Hd Hsz Hout).
        unfold execute_script, bind, log.
        set (s1 := {| display := display (queried element s); calls := _ |}).
        pose proof (visible_script_restores p s1 element ignorable Huni
                      Hhidden e) as Hres.
        destruct (visible_script p element ignorable s1) as [[b | ex] s2];
          exact Hres.
    + unfold visible_to_user, element_screen_position,
        get_window_inner_size, execute_script, bind, log, lift, ret. simpl.
      rewrite Hd. simpl. rewrite Hsz. reflexivity.
  - now rewrite (proj1 (visible_to_user_cheap_paths_helper
                          element ignorable s) Hd).
  - unfold visible_to_user, bind, log, lift, ret. simpl. rewrite Hd.
    reflexivity.
Qed.

End VisibilityMore.

(** ** [completely_visible_to_user] and [element_screen_center] *)

Section ScreenFacts.

Import Visibility Screen.

Variable p : page.
Variable get_window_size : result dims.

Implicit Types (s : browser) (element : elem).

Lemma inside_window_spec pos sz win :
  inside_window pos sz win = true <->
  (0 <= top pos /\ 0 <= left pos
   /\ top pos + height sz <= height win
   /\ left pos + width sz <= width win)%Z.
Proof.
  unfold inside_window.
  rewrite !andb_true_iff, !Z.geb_le, !Z.leb_le. tauto.
Qed.

(** An element that reports itself as not displayed is answered [False]
    after that one call: neither its size nor the size of the window is
    asked for, so it does not matter that those queries would raise. *)
Theorem completely_visible_not_displayed element s :
  is_displayed p element = Ok false ->
  completely_visible_to_user p get_window_size element s =
  (Ok false,
   {| display := display s; calls := calls s ++ [CallIsDisplayed element] |}).
Proof.
  intros Hd. unfold completely_visible_to_user, bind, log, lift. simpl.
  rewrite Hd. reflexivity.
Qed.

(** For a displayed element with a size that is not negative, the answer
    is [True] exactly when every point of the element's box, borders
    included, is a point of the window's rectangle; no [display] is
    changed. *)
Theorem completely_visible_iff_box_in_window element s sz win :
  is_displayed p element = Ok true ->
  size p element = Ok sz ->
  get_window_size = Ok win ->
  (0 <= height sz)%Z -> (0 <= width sz)%Z ->
  (fst (completely_visible_to_user p get_window_size element s) = Ok true
   <-> forall x y, in_box (screen_offset p element) sz x y ->
                   in_viewport win x y)
  /\ (exists b,
        fst (completely_visible_to_user p get_window_size element s) = Ok b)
  /\ display (snd (completely_visible_to_user p get_window_size element s))
     = display s.
Proof.
  intros Hd Hsz Hwin Hh Hw.
  assert (Hrun : completely_visible_to_user p get_window_size element s =
                 (Ok (inside_window (screen_offset p element) sz win),
                  {| display := display s;
                     calls := calls s ++ [CallIsDisplayed element;
                                          ScriptScreenPosition element;
                                          CallSize element] |})).
  { unfold completely_visible_to_user, element_screen_position,
      execute_script, bind, log, lift, ret. simpl.
    rewrite Hd. simpl. rewrite Hsz, Hwin.
    rewrite <- !app_assoc. reflexivity. }
  rewrite Hrun. cbn [fst snd display].
  split; [| split; [eexists; reflexivity | reflexivity]].
  split.
  - intros Heq. injection Heq as Heq. apply inside_window_spec in Heq.
    unfold in_box, in_viewport. intros x y. lia.
  - intros Hall. f_equal. apply inside_window_spec.
    pose proof (Hall (left (screen_offset p element))
                  (top (screen_offset p element))) as Hlo.
    pose proof (Hall (left (screen_offset p element) + width sz)%Z
                  (top (screen_offset p element) + height sz)%Z) as Hhi.
    unfold in_box, in_viewport in Hlo, Hhi. lia.
Qed.

Lemma half_exact (n : Z) :
  (0 <= n < two53)%Z -> half n = Ok (n / 2)%Z.
Proof.
  intros [Hlo Hhi]. unfold half, round53.
  rewrite (Z.abs_eq n Hlo).
  destruct (Z.ltb_spec n two53) as [_ | Hge]; [| lia].
  destruct (Z.leb_spec two1025 n) as [Hbig | _].
  - unfold two53, two1025 in *. lia.
  - f_equal. rewrite (Z.quot_div_nonneg n 2 Hlo ltac:(lia)).
    destruct (Z.eq_dec n 0) as [-> | Hne]; [reflexivity |].
    rewrite Z.sgn_pos by lia. lia.
Qed.

(** For an element whose height and width are integers from 0 to below
    [2 ** 53], where the division of Python is exact, the point that
    [element_screen_center] returns is a point of the element's box, and
    twice its distance to the top-left corner is the size, or one less
    when the size is odd. *)
Theorem element_screen_center_in_box element s sz :
  size p element = Ok sz ->
  (0 <= height sz < two53)%Z -> (0 <= width sz < two53)%Z ->
  exists c s',
    element_screen_center p element s = (Ok c, s')
    /\ display s' = display s
    /\ in_box (screen_offset p element) sz (left c) (top c)
    /\ (height sz - 1 <= 2 * (top c - top (screen_offset p element))
        <= height sz)%Z
    /\ (width sz - 1 <= 2 * (left c - left (screen_offset p element))
        <= width sz)%Z.
Proof.
  intros Hsz Hh Hw.
  assert (Hrun : element_screen_center p element s =
                 (Ok {| top := top (screen_offset p element)
                               + height sz / 2;
                        left := left (screen_offset p element)
                                + width sz / 2 |},
                  {| display := display s;
                     calls := calls s ++ [ScriptScreenPosition element;
                                          CallSize element] |})).
  { unfold element_screen_center, element_screen_position, execute_script,
      bind, log, lift, ret. simpl. rewrite Hsz.
    rewrite (half_exact _ Hh), (half_exact _ Hw).
    rewrite <- !app_assoc. reflexivity. }
  eexists _, _. split; [exact Hrun |]. split; [reflexivity |].
  unfold in_box. cbn [top left].
  pose proof (Z.div_mod (height sz) 2 ltac:(lia)) as Hdh.
  pose proof (Z.mod_pos_bound (height sz) 2 ltac:(lia)) as Hmh.
  pose proof (Z.div_mod (width sz) 2 ltac:(lia)) as Hdw.
  pose proof (Z.mod_pos_bound (width sz) 2 ltac:(lia)) as Hmw.
  lia.
Qed.

(** Beyond [2 ** 53] the division rounds: for a height of [2 ** 60 + 2]
    the half is [2 ** 59], one less than the exact half. *)
Lemma half_rounds :
  half (2 ^ 60 + 2) = Ok (2 ^ 59)%Z.
Proof. vm_compute. reflexivity. Qed.

End ScreenFacts.

(** ** [assert_same] *)

Section AssertionsFacts.

Import Visibility Assertions.

Implicit Types (first second : list elem).

Lemma skipn_nth_error (l : list elem) : forall i a,
  nth_error l i = Some a -> skipn i l = a :: skipn (S i) l.
Proof.
  induction l as [| x l IH]; intros [| i] a Hn; try discriminate.
  - injection Hn as ->. reflexivity.
  - simpl in Hn. apply IH in Hn. exact Hn.
Qed.

(** The loop from index [i] on lists of one length: it answers whether
    the lists agree from [i] on. *)
Lemma same_from_spec first second : forall n i,
  i + n = List.length first ->
  List.length first = List.length second ->
  (same_from first second i n = true <-> skipn i first = skipn i second).
Proof.
  induction n as [| n IH]; intros i Hi Hlen.
  - rewrite Nat.add_0_r in Hi. subst i. simpl.
    rewrite skipn_all. rewrite Hlen, skipn_all. tauto.
  - assert (Hlt1 : i < List.length first) by lia.
    assert (Hlt2 : i < List.length second) by lia.
    destruct (nth_error first i) as [a |] eqn:Ha;
      [| apply nth_error_None in Ha; lia].
    destruct (nth_error second i) as [b |] eqn:Hb;
      [| apply nth_error_None in Hb; lia].
    cbn [same_from]. unfold differ_at. rewrite Ha, Hb.
    rewrite (skipn_nth_error _ _ _ Ha), (skipn_nth_error _ _ _ Hb).
    destruct (Nat.eqb_spec a b) as [-> | Hne]; cbn [negb].
    + rewrite IH by lia.
      split; [intros H; f_equal; exact H | intros H; injection H; auto].
    + split; [discriminate | intros H; injection H; intros; contradiction].
Qed.

Lemma same_script_spec first second :
  same_script first second = true <-> first = second.
Proof.
  unfold same_script.
  destruct (Nat.eqb_spec (List.length first) (List.length second))
    as [Hlen | Hlen]; cbn [negb].
  - now rewrite (same_from_spec first second (List.length first) 0 eq_refl Hlen).
  - split; [discriminate | intros ->; contradiction].
Qed.

(** [assert_same] passes exactly when the two arguments, a lone element
    standing for the list that holds it, have the same elements at the same
    positions; otherwise it raises [AssertionError("unequal")]. *)
Theorem assert_same_iff_equal (x y : arg) :
  (assert_same x y = Passes <-> as_list x = as_list y)
  /\ (assert_same x y = RaisesAssertionError "unequal"
      <-> as_list x <> as_list y).
Proof.
  unfold assert_same.
  pose proof (same_script_spec (as_list x) (as_list y)) as Hspec.
  destruct (same_script (as_list x) (as_list y)); cbn [negb].
  - assert (Heq : as_list x = as_list y) by now apply Hspec.
    split; split; intros H; try reflexivity; try assumption;
      try discriminate; contradiction.
  - assert (Hne : as_list x <> as_list y)
      by (intros Heq; apply Hspec in Heq; discriminate).
    split; split; intros H; try reflexivity; try assumption;
      try discriminate; contradiction.
Qed.

End AssertionsFacts.

Lemma visible_to_user_true_sound_witness :
  let run := Visibility.visible_to_user Screen.page_one_overlay 0
               [".overlay"] Visibility.blank in
  run = (Ok true, snd run)
  /\ exists xy,
       In xy (Visibility.corners
                (Visibility.bounding_client_rect Screen.page_one_overlay
                   (Screen.hidden_displays Screen.page_one_overlay
                      [".overlay"] Visibility.blank) 0))
       /\ Visibility.element_from_point Screen.page_one_overlay
            (Screen.hidden_displays Screen.page_one_overlay
               [".overlay"] Visibility.blank) (fst xy) (snd xy) = Some 0.
Proof.
  cbv zeta. split; [reflexivity |].
  exact (proj2 (proj2 (visible_to_user_true_sound Screen.page_one_overlay 0
                         [".overlay"] Visibility.blank _ eq_refl))).
Defined.

Lemma visible_to_user_true_or_raises_witness :
  Visibility.contains_type_checks Screen.page_one_overlay = true
  /\ Visibility.is_displayed Screen.page_one_overlay 0 = Ok true
  /\ ~ Visibility.entirely_outside
         (Visibility.screen_offset Screen.page_one_overlay 0)
         {| Visibility.height := 100; Visibility.width := 101 |}
         (Visibility.window_dims Screen.page_one_overlay)
  /\ fst (Visibility.visible_to_user Screen.page_one_overlay 0 [".overlay"]
            Visibility.blank)
     = Ok true.
Proof.
  assert (Hin : ~ Visibility.entirely_outside
                    (Visibility.screen_offset Screen.page_one_overlay 0)
                    {| Visibility.height := 100; Visibility.width := 101 |}
                    (Visibility.window_dims Screen.page_one_overlay)).
  { unfold Visibility.entirely_outside. simpl. lia. }
  split; [reflexivity |]. split; [reflexivity |]. split; [exact Hin |].
  exact (visible_to_user_true_or_raises Screen.page_one_overlay 0 [".overlay"]
           Visibility.blank
           {| Visibility.height := 100; Visibility.width := 101 |}
           eq_refl eq_refl eq_refl Hin).
Defined.

Lemma visible_to_user_restores_uniform_witness :
  (forall x, In x [".overlay"] ->
             Visibility.uniform Screen.page_one_overlay Visibility.blank x)
  /\ (forall e,
        In e (Visibility.jquery_array Screen.page_one_overlay [".overlay"]) ->
        existsb (Visibility.matched_by Screen.page_one_overlay e)
          [".overlay"] = true)
  /\ forall e,
       Visibility.display
         (snd (Visibility.visible_to_user Screen.page_one_overlay 0
                 [".overlay"] Visibility.blank)) e
       = Visibility.display Visibility.blank e.
Proof.
  assert (Huni : forall x, In x [".overlay"] ->
             Visibility.uniform Screen.page_one_overlay Visibility.blank x).
  { intros x [<- | []] e v _ Hs. now injection Hs. }
  assert (Hh : forall e,
             In e (Visibility.jquery_array Screen.page_one_overlay
                     [".overlay"]) ->
             existsb (Visibility.matched_by Screen.page_one_overlay e)
               [".overlay"] = true).
  { intros e [<- | []]. reflexivity. }
  split; [exact Huni |]. split; [exact Hh |].
  exact (visible_to_user_restores_uniform Screen.page_one_overlay 0
           [".overlay"] Visibility.blank Huni Hh).
Defined.

Lemma completely_visible_not_displayed_witness :
  Visibility.is_displayed Visibility.page_not_displayed 0 = Ok false
  /\ Screen.completely_visible_to_user Visibility.page_not_displayed
       (Raise (WebDriverException "no such window")) 0 Visibility.blank
     = (Ok false,
        {| Visibility.display := Visibility.display Visibility.blank;
           Visibility.calls := [Visibility.CallIsDisplayed 0] |}).
Proof.
  split; [reflexivity |].
  exact (completely_visible_not_displayed Visibility.page_not_displayed
           (Raise (WebDriverException "no such window")) 0 Visibility.blank
           eq_refl).
Defined.

Lemma completely_visible_iff_box_in_window_witness :
  let sz := {| Visibility.height := 100; Visibility.width := 101 |} in
  let win := {| Visibility.height := 700; Visibility.width := 900 |} in
  Visibility.is_displayed Screen.page_one_overlay 0 = Ok true
  /\ Visibility.size Screen.page_one_overlay 0 = Ok sz
  /\ (0 <= Visibility.height sz)%Z
  /\ (0 <= Visibility.width sz)%Z
  /\ forall x y,
       Visibility.in_box
         (Visibility.screen_offset Screen.page_one_overlay 0) sz x y ->
       Visibility.in_viewport win x y.
Proof.
  cbv zeta.
  split; [reflexivity |]. split; [reflexivity |].
  split; [simpl; lia |]. split; [simpl; lia |].
  apply (proj1 (completely_visible_iff_box_in_window Screen.page_one_overlay
                  (Ok {| Visibility.height := 700; Visibility.width := 900 |})
                  0 Visibility.blank
                  {| Visibility.height := 100; Visibility.width := 101 |}
                  {| Visibility.height := 700; Visibility.width := 900 |}
                  eq_refl eq_refl eq_refl
                  ltac:(simpl; lia) ltac:(simpl; lia))).
  reflexivity.
Defined.

Lemma element_screen_center_in_box_witness :
  let sz := {| Visibility.height := 100; Visibility.width := 101 |} in
  Visibility.size Screen.page_one_overlay 0 = Ok sz
  /\ (0 <= Visibility.height sz < Screen.two53)%Z
  /\ (0 <= Visibility.width sz < Screen.two53)%Z
  /\ exists c s',
       Screen.element_screen_center Screen.page_one_overlay 0 Visibility.blank
       = (Ok c, s')
       /\ Visibility.in_box
            (Visibility.screen_offset Screen.page_one_overlay 0) sz
            (Visibility.left c) (Visibility.top c).
Proof.
  cbv zeta.
  split; [reflexivity |].
  split; [unfold Screen.two53; simpl; lia |].
  split; [unfold Screen.two53; simpl; lia |].
  destruct (element_screen_center_in_box Screen.page_one_overlay 0
              Visibility.blank
              {| Visibility.height := 100; Visibility.width := 101 |}
              eq_refl ltac:(unfold Screen.two53; simpl; lia)
              ltac:(unfold Screen.two53; simpl; lia))
    as (c & s' & Hrun & _ & Hbox & _).
  exists c, s'. split; [exact Hrun | exact Hbox].
Defined.
